(** * Batched environments: worker loop and coordinator of [utils/batched_env.py]

    A shallow embedding of the [worker] entry point and of the [BatchedEnv]
    class.  The simulation hosted by a worker ([env]) is an external
    collaborator and enters as an interface ([Simulation]); everything the
    file itself does -- the command dispatch, the auto-reset, the copy of
    [info], the fan-out/fan-in over the pipes, the [int16] step counters --
    is written out.  The loop of [train] of [DQN/train_test.py] follows in
    module [Train]. *)

From stdpp Require Import base numbers list strings.

Set Warnings "-register-all".
Set Default Proof Using "Type".

Local Open Scope string_scope.
Local Open Scope list_scope.
Local Open Scope Z_scope.

(** ** Python values *)

(** Exceptions deriving from Python's [Exception], the class caught by the
    handler of [worker]. *)
Inductive exn :=
  | TypeError
  | ValueError
  | AttributeError
  | IndexError
  | NotImplementedError
  | OSError
  | RecursionError
  | SimError (msg : string).

(** A value is immediate or a reference to a mutable object of the heap of
    the process that holds it. *)
Abbreviation addr := nat.

Inductive pyval :=
  | VNone
  | VBool (b : bool)
  | VInt (z : Z)
  | VStr (s : string)
  | VRef (a : addr).

(** Mutable containers; a dict keeps its insertion order. *)
Inductive pyobj :=
  | ODict (items : list (string * pyval))
  | OList (elems : list pyval).

(** The heap of one process: the object at address [a] is the [a]-th cell,
    allocation appends. *)
Abbreviation heap := (list pyobj).

Definition alloc (o : pyobj) (h : heap) : addr * heap := (length h, h ++ [o]).

(** What arrives at the other end of a pipe: the pickled value, detached
    from every heap. *)
Inductive pytree :=
  | TNone
  | TBool (b : bool)
  | TInt (z : Z)
  | TStr (s : string)
  | TDict (items : list (string * pytree))
  | TList (elems : list pytree).

(** [x.copy()] on a dict or a list: a new container holding the same
    entries, hence the same references.  Other values have no [copy]. *)
Definition py_copy (v : pyval) (h : heap) : exn + (pyval * heap) :=
  match v with
  | VRef a =>
      match h !! a with
      | Some o => let '(a', h') := alloc o h in inr (VRef a', h')
      | None => inl AttributeError
      end
  | _ => inl AttributeError
  end.

(** [copy.deepcopy(x)], which the source does not call: the containers
    reachable from [x] are duplicated too.  Only used to compare with
    [py_copy]. *)
Fixpoint py_deepcopy (fuel : nat) (v : pyval) (h : heap) : exn + (pyval * heap) :=
  match v with
  | VRef a =>
      match fuel with
      | O => inl RecursionError
      | S fuel' =>
          let fix copy_all (vs : list pyval) (h : heap) : exn + (list pyval * heap) :=
            match vs with
            | [] => inr ([], h)
            | v :: vs' =>
                match py_deepcopy fuel' v h with
                | inl e => inl e
                | inr (v', h1) =>
                    match copy_all vs' h1 with
                    | inl e => inl e
                    | inr (vs'', h2) => inr (v' :: vs'', h2)
                    end
                end
            end in
          match h !! a with
          | Some (ODict items) =>
              match copy_all (items.*2) h with
              | inl e => inl e
              | inr (vs, h1) =>
                  let '(a', h2) := alloc (ODict (zip (items.*1) vs)) h1 in
                  inr (VRef a', h2)
              end
          | Some (OList elems) =>
              match copy_all elems h with
              | inl e => inl e
              | inr (vs, h1) =>
                  let '(a', h2) := alloc (OList vs) h1 in inr (VRef a', h2)
              end
          | None => inl AttributeError
          end
      end
  | _ => inr (v, h)
  end.

(** Pickling follows references recursively; nesting deeper than the
    interpreter's recursion limit raises [RecursionError] (cyclic values are
    treated the same way). *)
Definition recursion_limit : nat := 1000.

Fixpoint pickle_at (fuel : nat) (h : heap) (v : pyval) : option pytree :=
  match v with
  | VNone => Some TNone
  | VBool b => Some (TBool b)
  | VInt z => Some (TInt z)
  | VStr s => Some (TStr s)
  | VRef a =>
      match fuel with
      | O => None
      | S fuel' =>
          match h !! a with
          | Some (ODict items) =>
              TDict <$> mapM (λ kv, pair kv.1 <$> pickle_at fuel' h kv.2) items
          | Some (OList elems) =>
              TList <$> mapM (pickle_at fuel' h) elems
          | None => None
          end
      end
  end.

Definition pickle (h : heap) (v : pyval) : exn + pytree :=
  match pickle_at recursion_limit h v with
  | Some t => inr t
  | None => inl RecursionError
  end.

(** ** Messages on a pipe *)

(** The [data] component of a command tuple [(cmd, data)]. *)
Inductive payload (Action : Type) :=
  | PNone
  | PAct (a : Action)
  | PInt (z : Z)
  | PMonitor (is_monitor is_train : bool) (experiment_dir : string)
      (record_video_every : Z).
Arguments PNone {Action}.
Arguments PAct {Action} a.
Arguments PInt {Action} z.
Arguments PMonitor {Action} is_monitor is_train experiment_dir record_video_every.

(** The simulation a worker hosts.  Each method may raise, and may allocate
    or mutate objects of the worker's heap; it has no access to the pipe. *)
Class Simulation := {
  Sim : Type;
  Action : Type;
  Obs : Type;
  Reward : Type;
  Space : Type;
  env_step : Sim → payload Action → heap →
             exn + (Sim * (Obs * Reward * bool * pyval) * heap);
  env_reset : Sim → heap → exn + (Sim * Obs * heap);
  env_seed : Sim → payload Action → heap → exn + (Sim * heap);
  env_render : Sim → heap → exn + (Sim * heap);
  env_monitor : Sim → bool → bool → string → Z → heap → exn + (Sim * heap);
  action_space : Sim → Space;
  observation_space : Sim → Space;
}.

(** 16-bit signed integers of [np.int16], as Z with the wrap-around. *)
Definition wrap16 (z : Z) : Z := (z + 32768) `mod` 65536 - 32768.

(** ** The worker subprocess *)

Section Worker.
Context `{Simulation}.

(** A command tuple [(cmd, data)] as the parent sends it. *)
Definition message : Type := string * payload Action.

(** What a worker sends back: the 4-tuple of a step, the observation of a
    reset, the pair of spaces. *)
Inductive reply :=
  | RStep (ob : Obs) (reward : Reward) (done : bool) (info : pytree)
  | RObs (ob : Obs)
  | RSpaces (act_space obs_space : Space).

(** The memory of a worker process besides [env]: its heap and its end of
    the pipe ([pipe_out] holds what it has sent and the parent has not yet
    received). *)
Record wstate := {
  w_heap : heap;
  pipe_out : list reply;
  pipe_closed : bool;
}.

(** Code of the worker: it reads and writes [wstate] and may raise; what
    was sent before an exception stays sent. *)
Definition Wk (A : Type) : Type := wstate → (exn + A) * wstate.

#[global] Instance Wk_ret : MRet Wk := λ A (a : A) st, (inr a, st).
#[global] Instance Wk_bind : MBind Wk := λ A B (k : A → Wk B) (m : Wk A) st,
  match m st with
  | (inr a, st') => k a st'
  | (inl e, st') => (inl e, st')
  end.

Definition raise {A} (e : exn) : Wk A := λ st, (inl e, st).

(** A call into the simulation or the interpreter, acting on the heap. *)
Definition call {A} (f : heap → exn + (A * heap)) : Wk A := λ st,
  match f (w_heap st) with
  | inl e => (inl e, st)
  | inr (a, h') =>
      (inr a, {| w_heap := h'; pipe_out := pipe_out st;
                 pipe_closed := pipe_closed st |})
  end.

(** Pickling of a value for [pipe.send], at the time of the send. *)
Definition dumps (v : pyval) : Wk pytree := λ st,
  match pickle (w_heap st) v with
  | inl e => (inl e, st)
  | inr t => (inr t, st)
  end.

Definition pipe_send (r : reply) : Wk unit := λ st,
  if pipe_closed st then (inl OSError, st)
  else (inr (), {| w_heap := w_heap st; pipe_out := pipe_out st ++ [r];
                   pipe_closed := pipe_closed st |}).

Definition pipe_close : Wk unit := λ st,
  (inr (), {| w_heap := w_heap st; pipe_out := pipe_out st;
              pipe_closed := true |}).

(** One turn of [while True], after [cmd, data = pipe.recv()]. *)
Inductive control :=
  | Next (env : Sim)
  | Break.

Definition loop_body (env : Sim) (msg : message) : Wk control :=
  let '(cmd, data) := msg in
  if String.eqb cmd "step" then
    '(env, (ob, reward, done, info)) ← call (env_step env data);
    total_info ← call (py_copy info);
    '(env, ob) ← (if done : bool then call (env_reset env)
                   else mret (env, ob));
    sent_info ← dumps total_info;
    pipe_send (RStep ob reward done sent_info);;
    mret (Next env)
  else if String.eqb cmd "reset" then
    '(env, ob) ← call (env_reset env);
    pipe_send (RObs ob);;
    mret (Next env)
  else if String.eqb cmd "close" then
    pipe_close;;
    mret Break
  else if String.eqb cmd "get_spaces" then
    pipe_send (RSpaces (action_space env) (observation_space env));;
    mret (Next env)
  else if String.eqb cmd "monitor" then
    match data with
    | PMonitor is_monitor is_train experiment_dir record_video_every =>
        env ← call (env_monitor env is_monitor is_train experiment_dir
                      record_video_every);
        mret (Next env)
    | _ => raise TypeError
    end
  else if String.eqb cmd "render" then
    env ← call (env_render env);
    mret (Next env)
  else if String.eqb cmd "seed" then
    env ← call (env_seed env data);
    mret (Next env)
  else
    raise NotImplementedError.

(** A subprocess: serving commands with its [env], or terminated with an
    exit code. *)
Inductive proc :=
  | Serving (env : Sim)
  | Exited (code : Z).

(** A worker as the parent holds it: the process, its memory, and
    [pipe_in], every command written to its pipe so far, in order. *)
Record Worker := {
  process : proc;
  mem : wstate;
  pipe_in : list message;
}.

(** [try: ... except Exception as e: pipe.close(); exit(-1)] around a
    piece of the worker's code.  Leaving the loop by [break] ends the
    function and the process with code 0. *)
Definition guarded (body : Wk control) (st : wstate) : proc * wstate :=
  match body st with
  | (inr (Next env), st') => (Serving env, st')
  | (inr Break, st') => (Exited 0, st')
  | (inl _, st') => (Exited (-1), (pipe_close st').2)
  end.

(** An environment factory, [env_fn_wrapper.obj]. *)
Definition Factory : Type := heap → exn + (Sim * heap).

(** [Process(target=worker, args=(pipe, seed, env_fn)).start()]: the code
    of [worker] before its loop. *)
Definition worker_start (seed : Z) (env_fn : Factory) : Worker :=
  let body : Wk control :=
    env ← call env_fn;
    env ← call (env_seed env (PInt seed));
    mret (Next env) in
  let '(p, st) := guarded body {| w_heap := []; pipe_out := [];
                                  pipe_closed := false |} in
  {| process := p; mem := st; pipe_in := [] |}.

(** [pipe.send(msg)] by the parent.  A serving worker is blocked in
    [pipe.recv()], takes the command and runs one turn of its loop; the
    workers share nothing, so when that turn runs relative to the parent
    and to the other workers makes no difference.  A terminated worker
    leaves the command unread. *)
Definition deliver (msg : message) (w : Worker) : Worker :=
  match process w with
  | Serving env =>
      let '(p, st) := guarded (loop_body env msg) (mem w) in
      {| process := p; mem := st; pipe_in := pipe_in w ++ [msg] |}
  | Exited code =>
      {| process := Exited code; mem := mem w;
         pipe_in := pipe_in w ++ [msg] |}
  end.

(** The worker's [while True] over a sequence of commands. *)
Definition worker_loop (msgs : list message) (w : Worker) : Worker :=
  foldl (λ w msg, deliver msg w) w msgs.

(** [pipe.recv()] by the parent: the oldest unread reply, or nothing to
    read.  The parent keeps its own handle on the worker's end of the pipe,
    so a dead worker gives no end-of-file: with nothing to read the parent
    waits forever. *)
Definition pipe_recv (w : Worker) : option (reply * Worker) :=
  match pipe_out (mem w) with
  | r :: rest =>
      Some (r, {| process := process w;
                  mem := {| w_heap := w_heap (mem w); pipe_out := rest;
                            pipe_closed := pipe_closed (mem w) |};
                  pipe_in := pipe_in w |})
  | [] => None
  end.

End Worker.

(** ** The coordinator, [BatchedEnv] *)

Section Coordinator.
Context `{Simulation}.

(** The global generator behind [np.random.randint]: the sequence of its
    draws and how many were consumed. *)
Record RandomState := {
  rng_draws : nat → Z;
  rng_pos : nat;
}.

(** The attributes of a [BatchedEnv] object; [close] sets each to [None].
    The tuples [_p_to_workers], [_p_to_parents] and [_ps] are aligned by
    index and describe the same subprocesses: they are held as the one
    list [_p_to_workers] of workers.  [_step_counters] is an array of
    [np.int16]. *)
Record BatchedEnv := {
  _num_envs : option nat;
  _p_to_workers : option (list Worker);
  _action_space : option Space;
  _observation_space : option Space;
  _step_counters : option (list Z);
}.

Record cstate := {
  self : BatchedEnv;
  np_random : RandomState;
}.

(** A call of a method returns, raises, or never returns because the
    parent waits on a pipe (or on a [join]) that nothing will serve.  The
    state is the one reached at that point: what was sent stays sent. *)
Inductive outcome (A : Type) :=
  | Returned (a : A) (st : cstate)
  | Raised (e : exn) (st : cstate)
  | Blocked (st : cstate).
Arguments Returned {A} a st.
Arguments Raised {A} e st.
Arguments Blocked {A} st.

(** The state a call leaves behind, whatever its outcome. *)
Definition state_of {A} (o : outcome A) : cstate :=
  match o with
  | Returned _ st | Raised _ st | Blocked st => st
  end.

Definition Co (A : Type) : Type := cstate → outcome A.

#[global] Instance Co_ret : MRet Co := λ A (a : A) st, Returned a st.
#[global] Instance Co_bind : MBind Co := λ A B (k : A → Co B) (m : Co A) st,
  match m st with
  | Returned a st' => k a st'
  | Raised e st' => Raised e st'
  | Blocked st' => Blocked st'
  end.

Definition throw {A} (e : exn) : Co A := λ st, Raised e st.
Definition block {A} : Co A := λ st, Blocked st.

(** [np.random.randint(2**31)] *)
Definition randint (rs : RandomState) : Z * RandomState :=
  (rng_draws rs (rng_pos rs) `mod` 2 ^ 31,
   {| rng_draws := rng_draws rs; rng_pos := S (rng_pos rs) |}).

Definition np_random_randint : Co Z := λ st,
  let '(z, rs) := randint (np_random st) in
  Returned z {| self := self st; np_random := rs |}.

(** Reading an attribute to iterate over it, index it or call a method of
    it: [e] is what Python raises when the attribute is [None]. *)
Definition pipes_or (e : exn) : Co (list Worker) := λ st,
  match _p_to_workers (self st) with
  | Some ws => Returned ws st
  | None => Raised e st
  end.

Definition counters_or (e : exn) : Co (list Z) := λ st,
  match _step_counters (self st) with
  | Some cs => Returned cs st
  | None => Raised e st
  end.

(** The pipes and the counters are mutated in place. *)
Definition set_pipes (ws : list Worker) : Co unit := λ st,
  Returned ()
    {| self := {| _num_envs := _num_envs (self st);
                  _p_to_workers := Some ws;
                  _action_space := _action_space (self st);
                  _observation_space := _observation_space (self st);
                  _step_counters := _step_counters (self st) |};
       np_random := np_random st |}.

Definition set_counters (cs : list Z) : Co unit := λ st,
  Returned ()
    {| self := {| _num_envs := _num_envs (self st);
                  _p_to_workers := _p_to_workers (self st);
                  _action_space := _action_space (self st);
                  _observation_space := _observation_space (self st);
                  _step_counters := Some cs |};
       np_random := np_random st |}.

(** [for pipe, x in zip(pipes, xs): pipe.send(msg x)]: [zip] stops at the
    shorter of the two. *)
Fixpoint send_zip (ws : list Worker) (msgs : list message) : list Worker :=
  match ws, msgs with
  | w :: ws', m :: msgs' => deliver m w :: send_zip ws' msgs'
  | _, _ => ws
  end.

(** [[pipe.send(msg) for pipe, done in zip(pipes, mask) if done]] *)
Fixpoint send_where (msg : message) (ws : list Worker) (mask : list bool)
  : list Worker :=
  match ws, mask with
  | w :: ws', done :: mask' =>
      (if done then deliver msg w else w) :: send_where msg ws' mask'
  | _, _ => ws
  end.

(** [[pipe.recv() for pipe in pipes]], in order; [None] when a [recv]
    finds nothing to read, with the pipes as they are at that point. *)
Fixpoint recv_each (ws : list Worker) : list Worker * option (list reply) :=
  match ws with
  | [] => ([], Some [])
  | w :: ws' =>
      match pipe_recv w with
      | None => (w :: ws', None)
      | Some (r, w') =>
          let '(ws'', rs) := recv_each ws' in (w' :: ws'', cons r <$> rs)
      end
  end.

(** [[pipe.recv() for pipe, done in zip(pipes, mask) if done]] *)
Fixpoint recv_where (ws : list Worker) (mask : list bool)
  : list Worker * option (list reply) :=
  match ws, mask with
  | w :: ws', done :: mask' =>
      if done then
        match pipe_recv w with
        | None => (w :: ws', None)
        | Some (r, w') =>
            let '(ws'', rs) := recv_where ws' mask' in
            (w' :: ws'', cons r <$> rs)
        end
      else
        let '(ws'', rs) := recv_where ws' mask' in (w :: ws'', rs)
  | _, _ => (ws, Some [])
  end.

(** A list of receptions as a step of the coordinator. *)
Definition receiving (r : list Worker * option (list reply))
  : Co (list reply) :=
  set_pipes r.1;;
  match r.2 with
  | Some rs => mret rs
  | None => block
  end.

(** The transposition [a, b, c, d = zip( *results )]: it needs at least one
    result, and 4-tuples. *)
Fixpoint unzip_steps (results : list reply)
  : option (list Obs * list Reward * list bool * list pytree) :=
  match results with
  | [] => Some ([], [], [], [])
  | RStep ob reward done info :: rest =>
      '(states, rewards, dones, infos) ← unzip_steps rest;
      Some (ob :: states, reward :: rewards, done :: dones, info :: infos)
  | _ => None
  end.

Definition zip_star (results : list reply)
  : Co (list Obs * list Reward * list bool * list pytree) :=
  match results with
  | [] => throw ValueError
  | _ => match unzip_steps results with
         | Some r => mret r
         | None => throw ValueError
         end
  end.

(** [np.stack(xs)]: the arrays stacked along a new first axis, one row per
    element, in order; an empty sequence is refused. *)
Definition np_stack {A} (xs : list A) : Co (list A) :=
  match xs with
  | [] => throw ValueError
  | _ => mret xs
  end.

(** The observations among the replies to a reset. *)
Definition as_obs (r : reply) : option Obs :=
  match r with
  | RObs ob => Some ob
  | _ => None
  end.

Definition np_stack_obs (rs : list reply) : Co (list Obs) :=
  match mapM as_obs rs with
  | Some obs => np_stack obs
  | None => throw ValueError
  end.

(** [np.count_nonzero(mask)] *)
Definition count_nonzero (mask : list bool) : nat :=
  length (filter (λ b : bool, b = true) mask).

(** [a[mask] = v] with a boolean mask: the lengths must agree. *)
Definition setitem_mask (cs : list Z) (mask : list bool) (v : Z)
  : exn + list Z :=
  if decide (length mask = length cs)
  then inr (zip_with (λ c (m : bool), if m then wrap16 v else c) cs mask)
  else inl IndexError.

(** [t[i]] on a tuple of length [n]: a negative index counts from the
    end. *)
Definition py_index (n : nat) (i : Z) : option nat :=
  if decide (0 ≤ i < Z.of_nat n) then Some (Z.to_nat i)
  else if decide (- Z.of_nat n ≤ i < 0) then Some (Z.to_nat (Z.of_nat n + i))
  else None.

Definition lift {A} (r : exn + A) : Co A :=
  match r with
  | inl e => throw e
  | inr a => mret a
  end.

(** *** Construction *)

(** Every attribute unset: the object before [__init__] has run, and
    again after [close]. *)
Definition released : BatchedEnv :=
  {| _num_envs := None; _p_to_workers := None; _action_space := None;
     _observation_space := None; _step_counters := None |}.

(** The subprocesses built and started, one per factory, each with a seed
    drawn in turn. *)
Fixpoint spawn (env_fns : list Factory) : Co (list Worker) :=
  match env_fns with
  | [] => mret []
  | env_fn :: rest =>
      seed ← np_random_randint;
      ps ← spawn rest;
      mret (worker_start seed env_fn :: ps)
  end.

Definition set_num_envs (n : nat) : Co unit := λ st,
  Returned ()
    {| self := {| _num_envs := Some n;
                  _p_to_workers := _p_to_workers (self st);
                  _action_space := _action_space (self st);
                  _observation_space := _observation_space (self st);
                  _step_counters := _step_counters (self st) |};
       np_random := np_random st |}.

Definition set_spaces (a o : Space) : Co unit := λ st,
  Returned ()
    {| self := {| _num_envs := _num_envs (self st);
                  _p_to_workers := _p_to_workers (self st);
                  _action_space := Some a;
                  _observation_space := Some o;
                  _step_counters := _step_counters (self st) |};
       np_random := np_random st |}.

(** [BatchedEnv.__init__].  Unpacking [zip] of no pipe at all into the two
    tuples fails, so a pool has at least one worker. *)
Definition init (env_fns : list Factory) : Co unit :=
  set_num_envs (length env_fns);;
  (match env_fns with
   | [] => throw ValueError
   | _ => mret ()
   end);;
  ps ← spawn env_fns;
  set_pipes ps;;
  match ps with
  | [] => throw IndexError
  | p0 :: rest =>
      let p0 := deliver ("get_spaces", PNone) p0 in
      set_pipes (p0 :: rest);;
      match pipe_recv p0 with
      | None => block
      | Some (r, p0) =>
          set_pipes (p0 :: rest);;
          match r with
          | RSpaces a o => set_spaces a o
          | _ => throw ValueError
          end
      end
  end;;
  set_counters (replicate (length env_fns) 0).

Definition BatchedEnv_new (env_fns : list Factory) (rs : RandomState)
  : outcome unit :=
  init env_fns {| self := released; np_random := rs |}.

(** *** Methods *)

(** [BatchedEnv.step] *)
Definition step (actions : list Action)
  : Co (list Obs * list Reward * list bool * list pytree) :=
  pipes ← pipes_or TypeError;
  set_pipes (send_zip pipes ((λ action, ("step", PAct action)) <$> actions));;
  pipes ← pipes_or TypeError;
  results ← receiving (recv_each pipes);
  '(states, rewards, dones, infos) ← zip_star results;
  counters ← counters_or TypeError;
  set_counters ((λ c, wrap16 (c + 1)) <$> counters);;
  states ← np_stack states;
  rewards ← np_stack rewards;
  dones ← np_stack dones;
  mret (states, rewards, dones, infos).

(** [BatchedEnv.reset]; the result [None] is Python's [None]. *)
Definition reset (mask : option (list bool)) : Co (option (list Obs)) :=
  match mask with
  | Some mask =>
      let num_reset := count_nonzero mask in
      if decide (num_reset = 0%nat) then mret None
      else
        counters ← counters_or TypeError;
        counters ← lift (setitem_mask counters mask 0);
        set_counters counters;;
        pipes ← pipes_or TypeError;
        set_pipes (send_where ("reset", PNone) pipes mask);;
        pipes ← pipes_or TypeError;
        replies ← receiving (recv_where pipes mask);
        obs ← np_stack_obs replies;
        mret (Some obs)
  | None =>
      counters ← counters_or AttributeError;
      set_counters ((λ _, wrap16 0) <$> counters);;
      pipes ← pipes_or TypeError;
      set_pipes (deliver ("reset", PNone) <$> pipes);;
      pipes ← pipes_or TypeError;
      replies ← receiving (recv_each pipes);
      obs ← np_stack_obs replies;
      mret (Some obs)
  end.

(** [p.join()]: returns once the process has terminated. *)
Definition join (p : Worker) : Co unit :=
  match process p with
  | Exited _ => mret ()
  | Serving _ => block
  end.

Fixpoint join_each (ps : list Worker) : Co unit :=
  match ps with
  | [] => mret ()
  | p :: ps' => join p;; join_each ps'
  end.

Definition release : Co unit := λ st,
  Returned () {| self := released; np_random := np_random st |}.

(** [BatchedEnv.close] *)
Definition close : Co unit :=
  pipes ← pipes_or TypeError;
  set_pipes (deliver ("close", PNone) <$> pipes);;
  ps ← pipes_or TypeError;
  join_each ps;;
  release.

(** [BatchedEnv.monitor] *)
Definition monitor (is_monitor is_train : bool) (experiment_dir : string)
    (record_video_every : Z) : Co unit :=
  pipes ← pipes_or TypeError;
  set_pipes (deliver ("monitor", PMonitor is_monitor is_train experiment_dir
                                   record_video_every) <$> pipes).

(** [for pipe in [pipes[i] for i in ids]: pipe.send(msg)] *)
Definition send_at (msg : message) (ws : list Worker) (ids : list nat)
  : list Worker :=
  foldl (λ ws i, alter (deliver msg) i ws) ws ids.

(** [BatchedEnv.render] *)
Definition render (env_ids : option (list Z)) : Co unit :=
  match env_ids with
  | Some ((_ :: _) as env_ids) =>
      pipes ← pipes_or TypeError;
      match mapM (py_index (length pipes)) env_ids with
      | Some ids => set_pipes (send_at ("render", PNone) pipes ids)
      | None => throw IndexError
      end
  | None =>
      pipes ← pipes_or TypeError;
      set_pipes (deliver ("render", PNone) <$> pipes)
  | Some [] => throw ValueError
  end.

(** A seed of a [seed_map]: an int, or [None] for a fresh random one. *)
Definition seed_payload (s : option Z) : payload Action :=
  match s with
  | Some z => PInt z
  | None => PNone
  end.

(** [[self._p_to_workers[id].send(('seed', s)) for (id, s) in
    seed_map.items()]] *)
Fixpoint seed_items (items : list (Z * option Z)) : Co unit :=
  match items with
  | [] => mret ()
  | (id, s) :: rest =>
      pipes ← pipes_or TypeError;
      match py_index (length pipes) id with
      | Some i =>
          set_pipes (alter (deliver ("seed", seed_payload s)) i pipes);;
          seed_items rest
      | None => throw IndexError
      end
  end.

(** [[pipe.send(('seed', np.random.randint(2**31))) for pipe in
    self._p_to_workers]] *)
Fixpoint seed_fresh (ws : list Worker) : Co (list Worker) :=
  match ws with
  | [] => mret []
  | pipe :: ws' =>
      z ← np_random_randint;
      rest ← seed_fresh ws';
      mret (deliver ("seed", PInt z) pipe :: rest)
  end.

(** [BatchedEnv.seed]; a [seed_map] is a dict, held as the list of its
    items in insertion order.  [if seed_map:] tests its truth value: [None]
    and the empty dict are both false. *)
Definition seed (seed_map : option (list (Z * option Z))) : Co unit :=
  match seed_map with
  | Some ((_ :: _) as items) => seed_items items
  | Some [] | None =>
      pipes ← pipes_or TypeError;
      pipes ← seed_fresh pipes;
      set_pipes pipes
  end.

End Coordinator.

Arguments Returned {_ _} a st.
Arguments Raised {_ _} e st.
Arguments Blocked {_ _} st.

(** ** A concrete simulation

    The deterministic counter of the specification's scenario: the
    observation is the number of steps since the last reset and the episode
    is done when it reaches [limit].  The simulation keeps the list of the
    counts it went through in one list object, which every [info] dict
    refers to and which [reset] empties in place. *)
Module Counter.

Record counter := {
  count : Z;
  limit : Z;
  visited : addr;
}.

Definition make (limit : Z) (h : heap) : exn + (counter * heap) :=
  let '(a, h') := alloc (OList []) h in
  inr ({| count := 0; limit := limit; visited := a |}, h').

Definition counter_step (env : counter) (data : payload unit) (h : heap)
  : exn + (counter * (Z * Z * bool * pyval) * heap) :=
  match data with
  | PAct _ =>
      match h !! visited env with
      | Some (OList l) =>
          let c := count env + 1 in
          let h1 := <[visited env := OList (l ++ [VInt c])]> h in
          let '(a, h2) :=
            alloc (ODict [("count", VInt c);
                          ("visited", VRef (visited env))]) h1 in
          inr ({| count := c; limit := limit env; visited := visited env |},
               (c, 1, bool_decide (c = limit env), VRef a), h2)
      | _ => inl (SimError "visited")
      end
  | _ => inl (SimError "action")
  end.

Definition counter_reset (env : counter) (h : heap) : exn + (counter * Z * heap) :=
  inr ({| count := 0; limit := limit env; visited := visited env |}, 0,
       <[visited env := OList []]> h).

Definition counter_seed (env : counter) (data : payload unit) (h : heap)
  : exn + (counter * heap) :=
  match data with
  | PInt _ | PNone => inr (env, h)
  | _ => inl TypeError
  end.

#[export] Instance sim : Simulation := {|
  Sim := counter;
  Action := unit;
  Obs := Z;
  Reward := Z;
  Space := Z;
  env_step := counter_step;
  env_reset := counter_reset;
  env_seed := counter_seed;
  env_render := λ env h, inr (env, h);
  env_monitor := λ env _ _ _ _ h, inr (env, h);
  action_space := λ _, 1;
  observation_space := λ _, 1;
|}.

Definition rs0 : RandomState :=
  {| rng_draws := λ n, 1103515245 * Z.of_nat n + 12345; rng_pos := 0 |}.

(** A pool of two counters with episodes of three steps, as constructed. *)
Definition pool2 : cstate := state_of (BatchedEnv_new [make 3; make 3] rs0).

(** One worker, just started, and the same after two steps. *)
Definition w0 : Worker := worker_start 7 (make 3).

Definition w2 : Worker :=
  worker_loop [("step", PAct ()); ("step", PAct ())] w0.

(** A pool of one counter whose episode never ends, as constructed. *)
Definition endless : cstate := state_of (BatchedEnv_new [make (-1)] rs0).

(** The states that pool goes through under [step]: the counter has made
    [c] steps and its list of visited counts sits at address 0. *)
Definition endless_worker (c : Z) (h : heap) (log : list message) : Worker :=
  {| process := Serving {| count := c; limit := -1; visited := 0%nat |};
     mem := {| w_heap := h; pipe_out := []; pipe_closed := false |};
     pipe_in := log |}.

Definition endless_inv (st : cstate) : Prop :=
  ∃ c h zs log cs a o rs,
    0 ≤ c ∧
    h !! 0%nat = Some (OList (VInt <$> zs)) ∧
    st = {| self := {| _num_envs := Some 1%nat;
                       _p_to_workers := Some [endless_worker c h log];
                       _action_space := a;
                       _observation_space := o;
                       _step_counters := Some cs |};
            np_random := rs |}.

(** A factory that raises, and the pool of a counter and of a worker that
    never started. *)
Definition broken (h : heap) : exn + (counter * heap) :=
  inl (SimError "no simulation").

Definition lame : cstate := state_of (BatchedEnv_new [make 3; broken] rs0).

(** The workers of [pool2] and of [lame]. *)
Definition pool2_workers : list Worker :=
  default [] (_p_to_workers (self pool2)).

Definition lame_workers : list Worker :=
  default [] (_p_to_workers (self lame)).

End Counter.

(** ** Vocabulary of the statements *)


(** The next [n] draws of [np.random.randint(2**31)], and the generator
    after them. *)
Definition draws (rs : RandomState) (n : nat) : list Z :=
  (λ k, rng_draws rs k `mod` 2 ^ 31) <$> seq (rng_pos rs) n.

Definition advance (rs : RandomState) (n : nat) : RandomState :=
  {| rng_draws := rng_draws rs; rng_pos := n + rng_pos rs |}.

(** [[x for x, done in zip(xs, mask) if done]] *)
Fixpoint flagged {A} (xs : list A) (mask : list bool) : list A :=
  match xs, mask with
  | x :: xs', done :: mask' =>
      if done then x :: flagged xs' mask' else flagged xs' mask'
  | _, _ => []
  end.

(** The indices Python accepts on a tuple of length [n]. *)
Definition in_range (n : nat) (id : Z) : Prop :=
  - Z.of_nat n ≤ id < Z.of_nat n.

Section Vocabulary.
Context `{Simulation}.

(** The commands written so far to each pipe of a pool. *)
Definition sent_to (ws : list Worker) : list (list message) :=
  pipe_in <$> ws.

(** [msgs] appended one per log, in order, as far as both lists go. *)
Fixpoint append_each (logs : list (list message)) (msgs : list message)
  : list (list message) :=
  match logs, msgs with
  | log :: logs', m :: msgs' => (log ++ [m]) :: append_each logs' msgs'
  | _, _ => logs
  end.

(** No reply is waiting in any pipe. *)
Definition quiet (ws : list Worker) : Prop :=
  Forall (λ w, pipe_out (mem w) = []) ws.

(** The range of [np.int16]. *)
Definition int16 (c : Z) : Prop := -32768 ≤ c < 32768.

(** The state of a [BatchedEnv] between two calls, as [__init__] leaves it
    and the methods keep it until [close]: a pool of at least one worker,
    one 16-bit counter per worker, no reply pending. *)
Definition ready (st : cstate) : Prop :=
  ∃ ws cs,
    _p_to_workers (self st) = Some ws ∧
    _step_counters (self st) = Some cs ∧
    _num_envs (self st) = Some (length ws) ∧
    ws ≠ [] ∧
    length cs = length ws ∧
    Forall int16 cs ∧
    quiet ws.

(** The reply a command tag calls for. *)
Definition reply_for (cmd : string) (r : reply) : Prop :=
  match r with
  | RStep _ _ _ _ => cmd = "step"
  | RObs _ => cmd = "reset"
  | RSpaces _ _ => cmd = "get_spaces"
  end.

(** The tags of the commands that call for no reply. *)
Definition fire_and_forget (cmd : string) : Prop :=
  cmd ≠ "step" ∧ cmd ≠ "reset" ∧ cmd ≠ "get_spaces".

(** Two states of a pool with the same replies waiting in each pipe. *)
Definition same_replies (ws ws' : list Worker) : Prop :=
  Forall2 (λ w w', pipe_out (mem w') = pipe_out (mem w)) ws ws'.

(** The counter of worker [i], when there is one. *)
Definition counter_at (st : cstate) (i : nat) : option Z :=
  cs ← _step_counters (self st); cs !! i.

(** Calls of [step] and [reset] made one after the other, each having
    returned. *)
Inductive invocation :=
  | CallStep (actions : list Action)
  | CallReset (mask : option (list bool)).

Definition run_call (c : invocation) : Co unit :=
  match c with
  | CallStep actions => step actions;; mret ()
  | CallReset mask => reset mask;; mret ()
  end.

Fixpoint run (calls : list invocation) : Co unit :=
  match calls with
  | [] => mret ()
  | c :: calls' => run_call c;; run calls'
  end.

(** The number of [step] calls since the last reset of worker [i], having
    started from [k]. *)
Definition count_call (i : nat) (k : Z) (c : invocation) : Z :=
  match c with
  | CallStep _ => k + 1
  | CallReset None => 0
  | CallReset (Some mask) =>
      if decide (mask !! i = Some true) then 0 else k
  end.

Definition steps_since_reset (i : nat) (k : Z) (calls : list invocation) : Z :=
  foldl (count_call i) k calls.

(** A worker once the parent has read all it had sent. *)
Definition drained (w : Worker) : Worker :=
  {| process := process w;
     mem := {| w_heap := w_heap (mem w); pipe_out := [];
               pipe_closed := pipe_closed (mem w) |};
     pipe_in := pipe_in w |}.

(** The same pool but for its pipes. *)
Definition same_but_pipes (st st' : cstate) : Prop :=
  _num_envs (self st') = _num_envs (self st) ∧
  _action_space (self st') = _action_space (self st) ∧
  _observation_space (self st') = _observation_space (self st) ∧
  _step_counters (self st') = _step_counters (self st) ∧
  np_random st' = np_random st.

(** The seed commands a [seed_map] holds for worker [j] of [n], in the
    order of the map. *)
Definition seeds_for (n j : nat) (items : list (Z * option Z))
  : list message :=
  (λ it, ("seed", seed_payload it.2))
    <$> filter (λ it, py_index n it.1 = Some j) items.

End Vocabulary.

(** ** The training loop of [DQN/train_test.py]

    [train(RL, directory)] drives a gym environment under its [Monitor]
    with an agent.  Both are external collaborators and enter as an
    interface ([Lab]) over one state, [World]: the emulator, the files of
    the monitor, the networks and the replay memory of the agent.  Every
    call may raise.  What the function itself does -- the counters, the
    running sum of the rewards, when it renders, learns, resets and
    stops -- is written out. *)
Module Train.

Class Lab := {
  World : Type;
  Env : Type;
  Agent : Type;
  Observation : Type;
  Act : Type;
  Num : Type;
  Info : Type;
  Costs : Type;
  (** the literal [0] and the [+] of [reward + acc_r[-1]] *)
  num_zero : Num;
  num_add : Num → Num → Num;
  (** [gym.make(name)] and [Monitor(env, directory, video_callable=...,
      resume=True)] *)
  gym_make : string → World → exn + (Env * World);
  Monitor : Env → string → World → exn + (Env * World);
  (** [env.reset()], [env.step(np.array([action]))], [env.render()] *)
  gym_reset : Env → World → exn + (Observation * World);
  gym_step : Env → Act → World →
             exn + ((Observation * Num * bool * Info) * World);
  gym_render : Env → World → exn + (unit * World);
  (** [RL.pick_action(observation)], [RL.store_trans(observation, action,
      reward, observation_)], [RL.learn()], the attribute [RL.cost_history] *)
  pick_action : Agent → Observation → World → exn + (Act * World);
  store_trans : Agent → Observation → Act → Num → Observation → World →
                exn + (unit * World);
  learn : Agent → World → exn + (unit * World);
  cost_history : Agent → World → exn + (Costs * World);
}.

Section Loop.
Context `{Lab}.

(** The external calls that have returned, and the line printed. *)
Inductive event :=
  | CMake (name : string)
  | CMonitor (directory : string)
  | CReset
  | CPick
  | CStep (reward : Num) (done : bool)
  | CRender
  | CStore
  | CLearn
  | CPrint (episodes : Z)
  | CCosts.

Record lab_state := {
  world : World;
  calls : list event;
}.

Definition Tr (A : Type) : Type := lab_state → (exn + A) * lab_state.

#[export] Instance Tr_ret : MRet Tr := λ A a s, (inr a, s).

#[export] Instance Tr_bind : MBind Tr := λ A B f m s,
  match m s with
  | (inl e, s') => (inl e, s')
  | (inr a, s') => f a s'
  end.

Definition abort {A} (e : exn) : Tr A := λ s, (inl e, s).

(** A call of the environment or of the agent: an exception propagates, a
    return is recorded. *)
Definition ext {A} (f : World → exn + (A * World)) (ev : A → event) : Tr A :=
  λ s, match f (world s) with
       | inl e => (inl e, s)
       | inr (a, w') => (inr a, {| world := w'; calls := calls s ++ [ev a] |})
       end.

(** [print("Training Finished after {} episodes".format(str(episodes)))] *)
Definition print (episodes : Z) : Tr unit :=
  λ s, (inr (), {| world := world s; calls := calls s ++ [CPrint episodes] |}).

Definition when (b : bool) (m : Tr unit) : Tr unit :=
  if b then m else mret ().

(** [xs[-1]] *)
Definition getitem_last {A} (xs : list A) : Tr A :=
  match last xs with
  | Some x => mret x
  | None => abort IndexError
  end.

Definition MEMORY_SIZE : Z := 5000.

(** The local variables of [train] that live across the turns of the
    loop. *)
Record vars := {
  acc_r : list Num;
  total_steps : Z;
  observation : Observation;
  episodes : Z;
  visualize : bool;
}.

(** How a turn of [while True] ends: at its bottom or by [break]. *)
Inductive flow :=
  | Again (v : vars)
  | Leave (v : vars).

(** The value of [visualize] after the test at the top of a turn. *)
Definition shown (v : vars) : bool :=
  if decide (episodes v `mod` 100 = 0) then true else visualize v.

(** One turn of the loop, from the test of [episodes % 100] to
    [total_steps += 1] or to the [break]. *)
Definition turn (env : Env) (RL : Agent) (v : vars) : Tr flow :=
  let visualize := shown v in
  action ← ext (pick_action RL (observation v)) (λ _, CPick);
  '(observation_, reward, done, info) ←
    ext (gym_step env action) (λ '(_, reward, done, _), CStep reward done);
  when visualize (ext (gym_render env) (λ _, CRender));;
  a ← getitem_last (acc_r v);
  let acc_r := acc_r v ++ [num_add reward a] in
  ext (store_trans RL (observation v) action reward observation_)
    (λ _, CStore);;
  when (bool_decide (total_steps v > MEMORY_SIZE))
    (ext (learn RL) (λ _, CLearn));;
  if decide (total_steps v - MEMORY_SIZE > 45000) then
    mret (Leave {| acc_r := acc_r; total_steps := total_steps v;
                   observation := observation v; episodes := episodes v;
                   visualize := visualize |})
  else if done : bool then
    observation_ ← ext (gym_reset env) (λ _, CReset);
    mret (Again {| acc_r := acc_r; total_steps := total_steps v + 1;
                   observation := observation_;
                   episodes := episodes v + 1; visualize := false |})
  else
    mret (Again {| acc_r := acc_r; total_steps := total_steps v + 1;
                   observation := observation_;
                   episodes := episodes v; visualize := visualize |}).

(** [while True]: [None] when [fuel] turns were not enough. *)
Fixpoint loop (fuel : nat) (env : Env) (RL : Agent) (v : vars)
  : Tr (option vars) :=
  match fuel with
  | O => mret None
  | S fuel' =>
      r ← turn env RL v;
      match r with
      | Leave v' => mret (Some v')
      | Again v' => loop fuel' env RL v'
      end
  end.

(** [train(RL, directory)]: the result is [(RL.cost_history, acc_r)]. *)
Definition train (fuel : nat) (RL : Agent) (directory : string)
  : Tr (option (Costs * list Num)) :=
  env ← ext (gym_make "MsPacman-ram-v0") (λ _, CMake "MsPacman-ram-v0");
  env ← ext (Monitor env directory) (λ _, CMonitor directory);
  observation ← ext (gym_reset env) (λ _, CReset);
  r ← loop fuel env RL
        {| acc_r := [num_zero]; total_steps := 0; observation := observation;
           episodes := 0; visualize := false |};
  match r with
  | None => mret None
  | Some v =>
      print (episodes v);;
      cost_history ← ext (cost_history RL) (λ _, CCosts);
      mret (Some (cost_history, acc_r v))
  end.

(** *** Vocabulary *)

(** The rewards and the [done] flags of the steps of a trace, in order. *)
Definition rewards (evs : list event) : list Num :=
  omap (λ e, match e with CStep reward _ => Some reward | _ => None end) evs.

Definition dones (evs : list event) : list bool :=
  omap (λ e, match e with CStep _ done => Some done | _ => None end) evs.

(** The number of episodes that end in a trace. *)
Definition ended (evs : list event) : Z := Z.of_nat (count_nonzero (dones evs)).

Definition is_learn (e : event) : bool :=
  match e with CLearn => true | _ => false end.

Definition is_store (e : event) : bool :=
  match e with CStore => true | _ => false end.

Definition occurrences (f : event → bool) (evs : list event) : nat :=
  length (List.filter f evs).

(** The sums [r1 + a], [r2 + (r1 + a)], ... *)
Fixpoint sums (a : Num) (rs : list Num) : list Num :=
  match rs with
  | [] => []
  | r :: rs' => num_add r a :: sums (num_add r a) rs'
  end.

(** The calls of one turn. *)
Definition turn_calls (render learnt reset : bool) (reward : Num) (done : bool)
  : list event :=
  [CPick; CStep reward done]
  ++ (if render then [CRender] else [])
  ++ [CStore]
  ++ (if learnt then [CLearn] else [])
  ++ (if reset then [CReset] else []).

(** The turns of the loop from [v] to the [break], with the calls made. *)
Inductive turns : vars → list event → vars → Prop :=
  | turns_leave v a reward done :
      total_steps v - MEMORY_SIZE > 45000 →
      last (acc_r v) = Some a →
      turns v
        (turn_calls (shown v) (bool_decide (total_steps v > MEMORY_SIZE))
           false reward done)
        {| acc_r := acc_r v ++ [num_add reward a];
           total_steps := total_steps v;
           observation := observation v; episodes := episodes v;
           visualize := shown v |}
  | turns_again v a reward (done : bool) o evs v' :
      ¬ total_steps v - MEMORY_SIZE > 45000 →
      last (acc_r v) = Some a →
      turns {| acc_r := acc_r v ++ [num_add reward a];
               total_steps := total_steps v + 1;
               observation := o;
               episodes := if done then episodes v + 1 else episodes v;
               visualize := if done then false else shown v |} evs v' →
      turns v
        (turn_calls (shown v) (bool_decide (total_steps v > MEMORY_SIZE))
           done reward done ++ evs)
        v'.

(** No call of the laboratory raises. *)
Definition obliging : Prop :=
  (∀ name w, ∃ r, gym_make name w = inr r) ∧
  (∀ env dir w, ∃ r, Monitor env dir w = inr r) ∧
  (∀ env w, ∃ r, gym_reset env w = inr r) ∧
  (∀ env a w, ∃ r, gym_step env a w = inr r) ∧
  (∀ env w, ∃ r, gym_render env w = inr r) ∧
  (∀ RL o w, ∃ r, pick_action RL o w = inr r) ∧
  (∀ RL o a x o' w, ∃ r, store_trans RL o a x o' w = inr r) ∧
  (∀ RL w, ∃ r, learn RL w = inr r) ∧
  (∀ RL w, ∃ r, cost_history RL w = inr r).

End Loop.

(** A laboratory where nothing happens: every step pays 1 and every
    seventh ends an episode. *)
#[export] Instance still : Lab := {|
  World := Z;
  Env := unit;
  Agent := unit;
  Observation := unit;
  Act := unit;
  Num := Z;
  Info := unit;
  Costs := unit;
  num_zero := 0;
  num_add := Z.add;
  gym_make := λ _ w, inr ((), w);
  Monitor := λ _ _ w, inr ((), w);
  gym_reset := λ _ w, inr ((), w);
  gym_step := λ _ _ w, inr (((), 1, bool_decide (w `mod` 7 = 6), ()), w + 1);
  gym_render := λ _ w, inr ((), w);
  pick_action := λ _ _ w, inr ((), w);
  store_trans := λ _ _ _ _ _ w, inr ((), w);
  learn := λ _ w, inr ((), w);
  cost_history := λ _ w, inr ((), w);
|}.

End Train.

(** ** Tactics *)

(** Unfolding of the two monads, to run a piece of worker or coordinator
    code on a state. *)
Ltac wk_unfold :=
  unfold mbind, mret, Wk_bind, Wk_ret, call, dumps, pipe_send, pipe_close,
    raise in *.

Ltac co_unfold :=
  cbv [receiving lift zip_star np_stack np_stack_obs release pipes_or
       counters_or set_pipes set_counters set_num_envs set_spaces throw
       block mbind mret Co_bind Co_ret] in *.

Ltac tr_unfold :=
  cbv [Train.ext Train.when Train.print Train.getitem_last Train.abort
       mbind mret Train.Tr_bind Train.Tr_ret] in *.

(** * Properties of the worker loop *)

Section WorkerProperties.
Context `{Simulation}.

Lemma loop_body_step env data st :
  loop_body env ("step", data) st =
  ('(env, (ob, reward, done, info)) ← call (env_step env data);
   total_info ← call (py_copy info);
   '(env, ob) ← (if done : bool then call (env_reset env)
                  else mret (env, ob));
   sent_info ← dumps total_info;
   pipe_send (RStep ob reward done sent_info);;
   mret (Next env)) st.
Proof. reflexivity. Qed.





(** A serving worker has its end of the pipe open: this holds when the
    process starts and each turn of the loop keeps it. *)
Lemma loop_body_next_open env msg st env' st' :
  pipe_closed st = false →
  loop_body env msg st = (inr (Next env'), st') →
  pipe_closed st' = false.
Proof.
  intros Hopen. destruct msg as [cmd data]. unfold loop_body.
  repeat (case_match; [wk_unfold; intros; repeat case_match;
                       simplify_eq/=; done|]).
  wk_unfold. intros; by simplify_eq.
Qed.

(** The turn of the loop for a [step] command, when every call in it
    succeeds. *)
Lemma deliver_step (w : Worker) env data env1 ob reward (done : bool) info
    h1 total_info h2 env2 ob2 h3 sent :
  process w = Serving env →
  pipe_closed (mem w) = false →
  env_step env data (w_heap (mem w))
    = inr (env1, (ob, reward, done, info), h1) →
  py_copy info h1 = inr (total_info, h2) →
  (if done then env_reset env1 h2 else inr (env1, ob, h2))
    = inr (env2, ob2, h3) →
  pickle h3 total_info = inr sent →
  deliver ("step", data) w =
  {| process := Serving env2;
     mem := {| w_heap := h3;
               pipe_out := pipe_out (mem w) ++ [RStep ob2 reward done sent];
               pipe_closed := false |};
     pipe_in := pipe_in w ++ [("step", data)] |}.
Proof.
  intros Hp Hopen Hstep Hcopy Hreset Hsent.
  unfold deliver, guarded. rewrite Hp, loop_body_step.
  wk_unfold. cbn. rewrite Hstep. cbn. rewrite Hcopy. cbn.
  destruct done; cbn.
  - rewrite Hreset. cbn. by rewrite Hsent, Hopen.
  - simplify_eq. by rewrite Hsent, Hopen.
Qed.

(** C1. On a [step] command whose simulation step reports [done], the
    worker resets the simulation and the observation of the 4-tuple it
    sends is the one returned by that reset, not the one of the step; when
    the step does not report [done], the observation sent is the one of
    the step.  In both cases exactly that one reply is sent. *)
Theorem step_reply_observation (w : Worker) env data env1 ob reward
    (done : bool) info h1 total_info h2 :
  process w = Serving env →
  pipe_closed (mem w) = false →
  env_step env data (w_heap (mem w))
    = inr (env1, (ob, reward, done, info), h1) →
  py_copy info h1 = inr (total_info, h2) →
  (done = true → ∀ env2 ob' h3 sent,
     env_reset env1 h2 = inr (env2, ob', h3) →
     pickle h3 total_info = inr sent →
     deliver ("step", data) w =
     {| process := Serving env2;
        mem := {| w_heap := h3;
                  pipe_out := pipe_out (mem w) ++ [RStep ob' reward true sent];
                  pipe_closed := false |};
        pipe_in := pipe_in w ++ [("step", data)] |}) ∧
  (done = false → ∀ sent,
     pickle h2 total_info = inr sent →
     deliver ("step", data) w =
     {| process := Serving env1;
        mem := {| w_heap := h2;
                  pipe_out := pipe_out (mem w) ++ [RStep ob reward false sent];
                  pipe_closed := false |};
        pipe_in := pipe_in w ++ [("step", data)] |}).
Proof.
  intros Hp Hopen Hstep Hcopy.
  split; intros ->.
  - intros env2 ob' h3 sent Hreset Hsent. by eapply deliver_step.
  - intros sent Hsent. by eapply deliver_step.
Qed.


End WorkerProperties.

(** * Properties of the coordinator *)

Section CoordinatorProperties.
Context `{Simulation}.

(** *** Arithmetic of the counters *)

Lemma wrap16_range z : -32768 ≤ wrap16 z < 32768.
Proof.
  unfold wrap16. pose proof (Z.mod_pos_bound (z + 32768) 65536). lia.
Qed.

Lemma wrap16_small z : -32768 ≤ z < 32768 → wrap16 z = z.
Proof. unfold wrap16. intros. rewrite Z.mod_small; lia. Qed.

Lemma wrap16_succ z : wrap16 (wrap16 z + 1) = wrap16 (z + 1).
Proof.
  unfold wrap16.
  replace ((z + 32768) `mod` 65536 - 32768 + 1 + 32768)
    with ((z + 32768) `mod` 65536 + 1) by lia.
  rewrite Z.add_mod_idemp_l by lia.
  do 2 f_equal. lia.
Qed.

(** *** The counters after a step *)

Lemma step_counters actions st r st' :
  step actions st = Returned r st' →
  ∃ cs, _step_counters (self st) = Some cs ∧
        _step_counters (self st') = Some ((λ c, wrap16 (c + 1)) <$> cs).
Proof.
  destruct st as [[n pw a o c] rs]. unfold step. co_unfold. cbn.
  destruct pw as [ws|]; cbn; [|done].
  destruct (recv_each _) as [ws' [rs'|]]; cbn; [|done].
  destruct rs' as [|r0 rs']; [done|].
  destruct (unzip_steps (r0 :: rs')) as [[[[states rewards] dones] infos]|];
    cbn; [|done].
  destruct c as [cs|]; cbn; [|done].
  destruct states, rewards, dones; cbn; try done.
  intros [= <- <-]. eauto.
Qed.

(** *** Masks *)

Lemma count_nonzero_all_false mask :
  Forall (λ b, b = false) mask → count_nonzero mask = 0%nat.
Proof.
  unfold count_nonzero. induction 1 as [|b mask -> _ IH]; [done|].
  by rewrite filter_cons_False.
Qed.

Lemma count_nonzero_zero mask i :
  count_nonzero mask = 0%nat → mask !! i ≠ Some true.
Proof.
  unfold count_nonzero. revert i.
  induction mask as [|b mask IH]; intros i; [by rewrite lookup_nil|].
  destruct b.
  - by rewrite filter_cons_True.
  - rewrite filter_cons_False by done. intros Hz.
    destruct i; cbn; [done|]. by apply IH.
Qed.

Lemma count_nonzero_replicate_true n :
  count_nonzero (replicate n true) = n.
Proof.
  unfold count_nonzero. induction n as [|n IH]; [done|].
  cbn [replicate]. rewrite filter_cons_True by done. cbn. by rewrite IH.
Qed.

Lemma setitem_mask_all cs v :
  setitem_mask cs (replicate (length cs) true) v
  = inr ((λ _, wrap16 v) <$> cs).
Proof.
  unfold setitem_mask. rewrite decide_True by apply length_replicate.
  f_equal. induction cs as [|c cs IH]; [done|]. cbn. by rewrite IH.
Qed.

Lemma send_where_all msg ws :
  send_where msg ws (replicate (length ws) true) = deliver msg <$> ws.
Proof. induction ws as [|w ws IH]; [done|]. cbn. by rewrite IH. Qed.

Lemma recv_where_all ws :
  recv_where ws (replicate (length ws) true) = recv_each ws.
Proof. induction ws as [|w ws IH]; [done|]. cbn. by rewrite IH. Qed.

(** *** What the pipes have carried *)

Lemma pipe_in_deliver msg w : pipe_in (deliver msg w) = pipe_in w ++ [msg].
Proof.
  unfold deliver. destruct (process w); [|done].
  by destruct (guarded _ _).
Qed.

Lemma sent_to_recv_each ws : sent_to (recv_each ws).1 = sent_to ws.
Proof.
  induction ws as [|w ws IH]; [done|]. cbn. unfold pipe_recv.
  destruct (pipe_out (mem w)); [done|].
  destruct (recv_each ws) as [ws' rs]. cbn in *. by rewrite IH.
Qed.

Lemma sent_to_recv_where ws mask :
  sent_to (recv_where ws mask).1 = sent_to ws.
Proof.
  revert mask. induction ws as [|w ws IH]; intros [|[] mask]; try done.
  - cbn. unfold pipe_recv. destruct (pipe_out (mem w)); [done|].
    specialize (IH mask). destruct (recv_where ws mask) as [ws' rs].
    cbn in *. by rewrite IH.
  - cbn. specialize (IH mask). destruct (recv_where ws mask) as [ws' rs].
    cbn in *. by rewrite IH.
Qed.

Lemma sent_to_send_zip ws msgs :
  sent_to (send_zip ws msgs) = append_each (sent_to ws) msgs.
Proof.
  revert msgs. induction ws as [|w ws IH]; intros [|m msgs]; try done.
  cbn. by rewrite pipe_in_deliver, <- IH.
Qed.

Lemma sent_to_deliver_all msg ws :
  sent_to (deliver msg <$> ws) = (λ log, log ++ [msg]) <$> sent_to ws.
Proof.
  unfold sent_to. rewrite <- !list_fmap_compose. apply list_fmap_ext.
  intros _ w _. apply pipe_in_deliver.
Qed.

(** *** Reset *)

(** C5. With a mask that flags no worker, [reset] returns [None], its
    empty result, and leaves the whole state as it was: nothing is written
    to or read from any pipe, no counter changes, no error is raised. *)
Theorem reset_nothing_flagged mask st :
  Forall (λ b, b = false) mask →
  reset (Some mask) st = Returned None st.
Proof.
  intros Hmask. unfold reset.
  by rewrite decide_True by by apply count_nonzero_all_false.
Qed.

(** With the mask of [num_envs] flags all true [reset] runs as
    [reset(None)] does, and leaves every worker with one more [reset]
    command and every counter at 0. *)
Lemma reset_all_true_same_call st n :
  ready st →
  _num_envs (self st) = Some n →
  reset (Some (replicate n true)) st = reset None st ∧
  ∃ ws cs ws' cs',
    _p_to_workers (self st) = Some ws ∧
    _step_counters (self st) = Some cs ∧
    _p_to_workers (self (state_of (reset None st))) = Some ws' ∧
    _step_counters (self (state_of (reset None st))) = Some cs' ∧
    sent_to ws' = (λ log, log ++ [("reset", PNone)]) <$> sent_to ws ∧
    cs' = replicate n 0.
Proof.
  intros (ws & cs & Hws & Hcs & Hn & Hne & Hlen & _ & _) Hn'.
  assert (n = length ws) as -> by congruence.
  destruct st as [[? ? ? ? ?] rs]; cbn in *; simplify_eq.
  split.
  - unfold reset. rewrite count_nonzero_replicate_true.
    rewrite decide_False by by destruct ws.
    co_unfold. cbn.
    rewrite <- Hlen, setitem_mask_all, Hlen. cbn.
    rewrite send_where_all.
    pose proof (recv_where_all (deliver ("reset", PNone) <$> ws)) as Hr.
    rewrite length_fmap in Hr. by rewrite Hr.
  - exists ws, cs. unfold reset. co_unfold. cbn.
    pose proof (sent_to_recv_each (deliver ("reset", PNone) <$> ws)) as Hs.
    rewrite sent_to_deliver_all in Hs.
    assert ((λ _ : Z, wrap16 0) <$> cs = replicate (length ws) 0) as Hz.
    { rewrite <- Hlen. clear. induction cs; cbn; by f_equal. }
    destruct (recv_each _) as [ws' [rs'|]]; cbn in *;
      [destruct (mapM as_obs rs') as [[|ob obs]|]; cbn|];
      by eexists ws', _.
Qed.

(** *** Step with the wrong number of actions *)

Lemma send_zip_take ws msgs :
  send_zip ws (take (length ws) msgs) = send_zip ws msgs.
Proof.
  revert msgs. induction ws as [|w ws IH]; intros [|m msgs]; cbn; try done.
  by rewrite IH.
Qed.

(** With fewer commands than workers, the receptions reach a worker that
    was sent nothing and has nothing to say (or stop before it). *)
Lemma recv_each_starved ws msgs :
  quiet ws → (length msgs < length ws)%nat →
  (recv_each (send_zip ws msgs)).2 = None.
Proof.
  revert msgs. induction ws as [|w ws IH]; intros msgs Hq Hlen;
    [cbn in Hlen; lia|].
  apply Forall_cons in Hq as [Hw Hq]. destruct msgs as [|m msgs]; cbn.
  - unfold pipe_recv. by rewrite Hw.
  - destruct (pipe_recv (deliver m w)) as [[r w']|]; [|done].
    cbn in Hlen. specialize (IH msgs Hq ltac:(lia)).
    destruct (recv_each _) as [ws' rs]; cbn in *. by rewrite IH.
Qed.

(** *** Seeding *)

Lemma seed_fresh_spec ws st :
  ∃ st' ws',
    seed_fresh ws st = Returned ws' st' ∧ self st' = self st ∧
    Forall2 (λ w w', ∃ z, 0 ≤ z < 2 ^ 31 ∧
                          pipe_in w' = pipe_in w ++ [("seed", PInt z)])
      ws ws'.
Proof.
  revert st. induction ws as [|w ws IH]; intros st; cbn.
  - by eexists _, _.
  - cbv [mbind Co_bind np_random_randint randint].
    edestruct IH as (st' & ws' & -> & Hself & Hall). cbv [mret Co_ret].
    eexists _, _. split_and!; [done|by rewrite Hself|].
    constructor; [|done]. eexists. split; [|apply pipe_in_deliver].
    by apply Z.mod_pos_bound.
Qed.

(** C7 fails on the code for a [seed_map] that is present and empty:
    [if seed_map:] sends such a map down the branch of the absent one, so
    every worker of the pool is sent a seed command with a fresh random
    seed, where the claim has no command sent at all. *)
Theorem seed_empty_map_seeds_everyone st ws :
  _p_to_workers (self st) = Some ws →
  seed (Some []) st = seed None st ∧
  ∃ st' ws',
    seed (Some []) st = Returned () st' ∧
    _p_to_workers (self st') = Some ws' ∧
    Forall2 (λ w w', ∃ z, 0 ≤ z < 2 ^ 31 ∧
                          pipe_in w' = pipe_in w ++ [("seed", PInt z)])
      ws ws'.
Proof.
  intros Hws. split; [done|]. unfold seed. co_unfold. rewrite Hws.
  destruct (seed_fresh_spec ws st) as (st' & ws' & -> & _ & Hall).
  by eexists _, ws'.
Qed.

(** *** Close, and after *)

Lemma deliver_close_exits w :
  ∃ code, process (deliver ("close", PNone) w) = Exited code.
Proof.
  unfold deliver. destruct (process w) as [env|code]; cbn; eauto.
Qed.

Lemma join_each_exited ps st :
  Forall (λ p, ∃ code, process p = Exited code) ps →
  join_each ps st = Returned () st.
Proof.
  induction 1 as [|p ps [code Hp] _ IH]; [done|].
  cbn. unfold join. rewrite Hp. cbv [mbind mret Co_bind Co_ret]. apply IH.
Qed.

(** [close] always completes on a pool: every worker, once sent [close],
    has exited, so no [join] waits. *)
Lemma close_returns st ws :
  _p_to_workers (self st) = Some ws →
  ∃ st', close st = Returned () st' ∧ self st' = released.
Proof.
  intros Hws. unfold close. co_unfold. rewrite Hws. cbn.
  rewrite join_each_exited; [by eexists|].
  apply Forall_fmap, Forall_true. intros w. apply deliver_close_exits.
Qed.

Lemma close_released st st' :
  close st = Returned () st' → self st' = released.
Proof.
  unfold close. co_unfold. intros Hclose.
  repeat case_match; by simplify_eq/=.
Qed.

(** C9, as the code has it.  No method checks that the pool was closed.
    After [close] every attribute is [None], and a later call fails where
    it first uses one: [step], [seed], [monitor], [reset] with a mask
    flagging some worker and [render] of all or of some workers raise
    [TypeError], [reset(None)] raises [AttributeError]; all leave the
    state untouched and none waits.  [reset] with a mask flagging no worker
    uses no attribute and returns [None] as before [close], and [render]
    of an empty list raises the [ValueError] of its argument check. *)
Theorem calls_after_close st st' :
  close st = Returned () st' →
  (∀ actions, step actions st' = Raised TypeError st') ∧
  reset None st' = Raised AttributeError st' ∧
  (∀ mask, count_nonzero mask ≠ 0%nat →
           reset (Some mask) st' = Raised TypeError st') ∧
  (∀ mask, count_nonzero mask = 0%nat →
           reset (Some mask) st' = Returned None st') ∧
  (∀ seed_map, seed seed_map st' = Raised TypeError st') ∧
  (∀ env_ids, env_ids ≠ Some [] →
              render env_ids st' = Raised TypeError st') ∧
  render (Some []) st' = Raised ValueError st' ∧
  (∀ is_monitor is_train experiment_dir record_video_every,
     monitor is_monitor is_train experiment_dir record_video_every st'
     = Raised TypeError st').
Proof.
  intros Hclose%close_released. destruct st' as [b rs]. cbn in Hclose.
  subst b. split_and!; try done.
  - intros mask Hmask. unfold reset. by rewrite decide_False.
  - intros mask Hmask. unfold reset. by rewrite decide_True.
  - by intros [[|[id s] items]|].
  - intros [[|i ids]|]; done.
Qed.

(** *** The counters along a sequence of calls *)

Lemma step_counter_at actions st r st' i k :
  step actions st = Returned r st' →
  counter_at st i = Some k →
  counter_at st' i = Some (wrap16 (k + 1)).
Proof.
  intros (cs & Hcs & Hcs')%step_counters. unfold counter_at.
  rewrite Hcs, Hcs'. cbn. rewrite list_lookup_fmap. by intros ->.
Qed.

Lemma reset_counter_at mask st r st' i k :
  reset mask st = Returned r st' →
  counter_at st i = Some k →
  counter_at st' i = Some (count_call i k (CallReset mask)).
Proof.
  destruct st as [[n pw a o c] rs].
  unfold counter_at, reset, setitem_mask. destruct mask as [mask|]; cbn.
  - case_decide as Hz.
    + intros [= _ <-] Hk. cbn.
      by rewrite decide_False by by apply count_nonzero_zero.
    + co_unfold. cbn. destruct c as [cs|]; cbn; [|done].
      case_decide as Hlen; cbn; [|done].
      destruct pw as [ws|]; cbn; [|done].
      destruct (recv_where _ _) as [ws' [rs'|]]; cbn; [|done].
      destruct (mapM as_obs rs') as [[|ob obs]|]; cbn; try done.
      intros [= _ <-] Hk. cbn. rewrite lookup_zip_with, Hk. cbn.
      destruct (mask !! i) as [[]|] eqn:Hm; cbn.
      * by rewrite decide_True.
      * by rewrite decide_False.
      * apply lookup_lt_Some in Hk. apply lookup_ge_None in Hm. lia.
  - co_unfold. cbn. destruct c as [cs|]; cbn; [|done].
    destruct pw as [ws|]; cbn; [|done].
    destruct (recv_each _) as [ws' [rs'|]]; cbn; [|done].
    destruct (mapM as_obs rs') as [[|ob obs]|]; cbn; try done.
    intros [= _ <-]. cbn. rewrite list_lookup_fmap. by intros ->.
Qed.

Lemma run_call_counter_at c st st' i k :
  run_call c st = Returned () st' →
  counter_at st i = Some (wrap16 k) →
  counter_at st' i = Some (wrap16 (count_call i k c)).
Proof.
  destruct c as [actions|mask]; cbn; cbv [mbind mret Co_bind Co_ret].
  - destruct (step actions st) as [r st1| |] eqn:Hstep; [|done..].
    intros [= <-] Hk. rewrite (step_counter_at _ _ _ _ _ _ Hstep Hk).
    by rewrite wrap16_succ.
  - destruct (reset mask st) as [r st1| |] eqn:Hreset; [|done..].
    intros [= <-] Hk. rewrite (reset_counter_at _ _ _ _ _ _ Hreset Hk).
    destruct mask as [mask|]; cbn; [case_decide|]; done.
Qed.

(** Between calls the counter of worker [i] is the number of [step] calls
    since its last reset, reduced to 16 bits. *)
Lemma run_counter_at calls st st' i k :
  run calls st = Returned () st' →
  counter_at st i = Some (wrap16 k) →
  counter_at st' i = Some (wrap16 (steps_since_reset i k calls)).
Proof.
  revert st k. induction calls as [|c calls IH]; intros st k; cbn.
  - by intros [= <-].
  - cbv [mbind Co_bind].
    destruct (run_call c st) as [[] st1| |] eqn:Hc; [|done..].
    intros Hrun Hk. eapply IH; [done|]. by eapply run_call_counter_at.
Qed.

(** Within the range of 16 bits the counter is that number itself. *)
Lemma step_counter_below actions st r st' i k :
  step actions st = Returned r st' →
  counter_at st i = Some k →
  -32768 ≤ k < 32767 →
  counter_at st' i = Some (k + 1).
Proof.
  intros Hstep Hk Hrange. rewrite (step_counter_at _ _ _ _ _ _ Hstep Hk).
  by rewrite wrap16_small by lia.
Qed.

Lemma run_counter_exact calls st st' i :
  run calls st = Returned () st' →
  counter_at st i = Some 0 →
  -32768 ≤ steps_since_reset i 0 calls < 32768 →
  counter_at st' i = Some (steps_since_reset i 0 calls).
Proof.
  intros Hrun Hk Hrange. rewrite (run_counter_at _ _ _ i 0 Hrun Hk).
  by rewrite wrap16_small.
Qed.

Lemma steps_since_reset_steps i k n actions :
  steps_since_reset i k (replicate n (CallStep actions)) = k + Z.of_nat n.
Proof.
  revert k. induction n as [|n IH]; intros k; cbn; [lia|].
  unfold steps_since_reset in IH. rewrite IH. lia.
Qed.

End CoordinatorProperties.

(** * The state between two calls *)

Section Invariant.
Context `{Simulation}.

(** A turn of the loop sends at most one reply, of the kind its command
    calls for. *)
Lemma loop_body_out env cmd data st res st' :
  loop_body env (cmd, data) st = (res, st') →
  pipe_out st' = pipe_out st ∨
  ∃ r, pipe_out st' = pipe_out st ++ [r] ∧ reply_for cmd r.
Proof.
  unfold loop_body.
  repeat (match goal with
          | |- context [String.eqb cmd ?tag] =>
              destruct (String.eqb cmd tag) eqn:Htag;
              [apply String.eqb_eq in Htag as ->; wk_unfold; intros;
               repeat case_match; simplify_eq/=;
               first [by left|right; by eexists]|clear Htag]
          end).
  wk_unfold. intros; simplify_eq. by left.
Qed.

Lemma deliver_out cmd data w :
  pipe_out (mem (deliver (cmd, data) w)) = pipe_out (mem w) ∨
  ∃ r, pipe_out (mem (deliver (cmd, data) w)) = pipe_out (mem w) ++ [r] ∧
       reply_for cmd r.
Proof.
  unfold deliver, guarded. destruct (process w) as [env|code]; [|by left].
  destruct (loop_body env (cmd, data) (mem w)) as [res st'] eqn:Hbody.
  apply loop_body_out in Hbody. by destruct res as [e|[env'|]].
Qed.

(** A started worker has sent nothing, and its end of the pipe is open if
    it serves. *)
Lemma worker_start_fresh seed env_fn :
  pipe_out (mem (worker_start seed env_fn)) = [] ∧
  (∀ env, process (worker_start seed env_fn) = Serving env →
          pipe_closed (mem (worker_start seed env_fn)) = false).
Proof.
  unfold worker_start, guarded. wk_unfold. cbn.
  destruct (env_fn []) as [e|[env h]]; cbn; [done|].
  destruct (env_seed env (PInt seed) h) as [e|[env' h']]; cbn; done.
Qed.

Lemma deliver_open msg w env' :
  (∀ env, process w = Serving env → pipe_closed (mem w) = false) →
  process (deliver msg w) = Serving env' →
  pipe_closed (mem (deliver msg w)) = false.
Proof.
  unfold deliver, guarded. destruct (process w) as [env|code]; [|done].
  intros Hopen. specialize (Hopen env eq_refl).
  destruct (loop_body env msg (mem w)) as [res st'] eqn:Hbody.
  destruct res as [e|[env''|]]; cbn; try done.
  intros _. by eapply loop_body_next_open.
Qed.

(** *** Fan-out and fan-in on a quiet pool *)

Lemma pipe_recv_quiet w : pipe_out (mem w) = [] → pipe_recv w = None.
Proof. unfold pipe_recv. by intros ->. Qed.

Lemma pipe_recv_one w r :
  pipe_out (mem w) = [r] →
  ∃ w', pipe_recv w = Some (r, w') ∧ pipe_out (mem w') = [] ∧
        pipe_in w' = pipe_in w ∧ process w' = process w.
Proof. unfold pipe_recv. intros ->. by eexists. Qed.

Lemma deliver_then_recv cmd data w r w' :
  pipe_out (mem w) = [] →
  pipe_recv (deliver (cmd, data) w) = Some (r, w') →
  pipe_out (mem w') = [] ∧ reply_for cmd r.
Proof.
  intros Hq. destruct (deliver_out cmd data w) as [Ho|(r' & Ho & Hr)];
    rewrite Hq in Ho; cbn in Ho.
  - by rewrite pipe_recv_quiet.
  - destruct (pipe_recv_one _ _ Ho) as (w'' & -> & Hq' & _). by intros [= <- <-].
Qed.

Lemma recv_each_send_zip cmd ws msgs ws' rs :
  quiet ws → Forall (λ m, m.1 = cmd) msgs →
  recv_each (send_zip ws msgs) = (ws', Some rs) →
  quiet ws' ∧ length ws' = length ws ∧ length rs = length ws ∧
  Forall (reply_for cmd) rs.
Proof.
  revert msgs ws' rs. induction ws as [|w ws IH]; intros msgs ws' rs Hq Hm.
  - destruct msgs; cbn; intros [= <- <-]; by repeat constructor.
  - apply Forall_cons in Hq as [Hw Hq].
    destruct msgs as [|[cmd' data] msgs]; cbn.
    { by rewrite pipe_recv_quiet. }
    apply Forall_cons in Hm as [Hcmd Hm]. cbn in Hcmd. subst cmd'.
    destruct (pipe_recv (deliver (cmd, data) w)) as [[r w1]|] eqn:Hr; [|done].
    destruct (deliver_then_recv _ _ _ _ _ Hw Hr) as [Hq1 Hfor].
    destruct (recv_each (send_zip ws msgs)) as [ws1 [rs1|]] eqn:Hrest;
      cbn; [|done].
    intros [= <- <-].
    destruct (IH _ _ _ Hq Hm Hrest) as (? & ? & ? & ?).
    split_and!; cbn; try (by constructor); by f_equal.
Qed.

Lemma count_nonzero_cons b mask :
  count_nonzero (b :: mask)
  = if b then S (count_nonzero mask) else count_nonzero mask.
Proof.
  unfold count_nonzero. destruct b.
  - by rewrite filter_cons_True.
  - by rewrite filter_cons_False.
Qed.

Lemma recv_where_length ws mask ws' rs :
  recv_where ws mask = (ws', Some rs) →
  length mask = length ws →
  length rs = count_nonzero mask.
Proof.
  revert mask ws' rs.
  induction ws as [|w ws IH]; intros [|b mask] ws' rs; try done.
  - by intros [= <- <-].
  - rewrite count_nonzero_cons. cbn. destruct b.
    + destruct (pipe_recv w) as [[r w1]|]; [|done].
      destruct (recv_where ws mask) as [ws1 [rs1|]] eqn:Hrest; cbn; [|done].
      intros [= <- <-] [= Hlen]. cbn. f_equal. by eapply IH.
    + destruct (recv_where ws mask) as [ws1 rs1] eqn:Hrest; cbn.
      intros [= <- ->] [= Hlen]. by eapply IH.
Qed.

Lemma recv_where_send_where cmd data ws mask ws' rs :
  quiet ws →
  recv_where (send_where (cmd, data) ws mask) mask = (ws', Some rs) →
  quiet ws' ∧ length ws' = length ws ∧ Forall (reply_for cmd) rs.
Proof.
  revert mask ws' rs. induction ws as [|w ws IH]; intros mask ws' rs Hq.
  - destruct mask; cbn; intros [= <- <-]; by repeat constructor.
  - apply Forall_cons in Hq as [Hw Hq]. destruct mask as [|b mask]; cbn.
    { intros [= <- <-]. split_and!; try done. by constructor. }
    destruct b.
    + destruct (pipe_recv (deliver (cmd, data) w)) as [[r w1]|] eqn:Hr;
        [|done].
      destruct (deliver_then_recv _ _ _ _ _ Hw Hr) as [Hq1 Hfor].
      destruct (recv_where _ mask) as [ws1 [rs1|]] eqn:Hrest; cbn; [|done].
      intros [= <- <-]. destruct (IH _ _ _ Hq Hrest) as (? & ? & ?).
      split_and!; cbn; try (by constructor); by f_equal.
    + destruct (recv_where _ mask) as [ws1 rs1] eqn:Hrest; cbn.
      intros [= <- ->]. destruct (IH _ _ _ Hq Hrest) as (? & ? & ?).
      split_and!; cbn; try (by constructor); by f_equal.
Qed.

Lemma unzip_steps_total rs :
  Forall (reply_for "step") rs →
  ∃ states rewards dones infos,
    unzip_steps rs = Some (states, rewards, dones, infos) ∧
    length states = length rs ∧ length rewards = length rs ∧
    length dones = length rs ∧ length infos = length rs.
Proof.
  induction 1 as [|r rs Hr _ (ss & rws & ds & infs & Hu & ? & ? & ? & ?)].
  - by eexists [], [], [], [].
  - destruct r; try done. cbn. rewrite Hu. cbn. eexists _, _, _, _.
    split; [done|]. cbn. by split_and!; f_equal.
Qed.

Lemma as_obs_total rs :
  Forall (reply_for "reset") rs →
  ∃ obs, mapM as_obs rs = Some obs ∧ length obs = length rs.
Proof.
  induction 1 as [|r rs Hr _ (obs & Hobs & ?)]; [by exists []|].
  destruct r; try done. cbn. rewrite Hobs. cbn. eexists. split; [done|].
  cbn. by f_equal.
Qed.

(** *** [ready] is established by [__init__] and kept by the methods *)

Lemma spawn_spec env_fns st :
  ∃ ws st',
    spawn env_fns st = Returned ws st' ∧ self st' = self st ∧
    length ws = length env_fns ∧ quiet ws.
Proof.
  revert st. induction env_fns as [|fn fns IH]; intros st; cbn.
  - eexists [], st. split_and!; try done. constructor.
  - cbv [mbind Co_bind np_random_randint]. destruct (randint _) as [z rs].
    edestruct IH as (ws & st' & -> & Hself & Hlen & Hq). cbv [mret Co_ret].
    eexists _, _. split_and!; [done|by rewrite Hself|cbn; by f_equal|].
    constructor; [apply worker_start_fresh|done].
Qed.

Lemma init_ready env_fns rs st :
  BatchedEnv_new env_fns rs = Returned () st →
  ready st ∧
  _num_envs (self st) = Some (length env_fns) ∧
  _step_counters (self st) = Some (replicate (length env_fns) 0).
Proof.
  unfold BatchedEnv_new, init. destruct env_fns as [|fn fns]; [done|].
  co_unfold. cbn [self _num_envs].
  destruct (spawn_spec (fn :: fns)
              {| self := {| _num_envs := Some (length (fn :: fns));
                            _p_to_workers := None; _action_space := None;
                            _observation_space := None;
                            _step_counters := None |};
                 np_random := rs |})
    as (ws & st' & Hsp & Hself & Hlen & Hq).
  cbn in Hsp. cbn. rewrite Hsp. destruct st' as [b rs']. cbn in Hself. subst b.
  destruct ws as [|p0 rest]; [done|]. apply Forall_cons in Hq as [Hq0 Hq].
  cbn. destruct (pipe_recv _) as [[r p0']|] eqn:Hr; [|done].
  destruct (deliver_then_recv _ _ _ _ _ Hq0 Hr) as [Hq0' Hfor].
  destruct r; try done. cbn. intros [= <-]. cbn.
  cbn in Hlen. injection Hlen as Hlen.
  split_and!; [|done..].
  eexists (p0' :: rest), _. cbn [self _p_to_workers _step_counters _num_envs].
  split_and!; try done.
  - cbn. by rewrite Hlen.
  - cbn. by rewrite length_replicate, Hlen.
  - by apply (Forall_replicate int16 (S (length fns)) 0).
  - by constructor.
Qed.

Lemma step_from_ready actions st :
  ready st →
  match step actions st with
  | Returned (states, rewards, dones, infos) st' =>
      ready st' ∧ _num_envs (self st') = _num_envs (self st) ∧
      ∃ n, _num_envs (self st) = Some n ∧ length states = n ∧
           length rewards = n ∧ length dones = n ∧ length infos = n
  | Raised _ _ => False
  | Blocked _ => True
  end.
Proof.
  intros (ws & cs & Hws & Hcs & Hn & Hne & Hlen & Hcs16 & Hq).
  destruct st as [[? ? ? ? ?] rs]; cbn in *; simplify_eq.
  unfold step. co_unfold. cbn.
  destruct (recv_each _) as [ws' [rs'|]] eqn:Hr; cbn; [|done].
  apply (recv_each_send_zip "step") in Hr as (Hq' & Hlen' & Hrs & Hfor);
    [|done|by apply Forall_fmap, Forall_true].
  destruct (unzip_steps_total rs' Hfor)
    as (ss & rws & ds & infs & Hu & ? & ? & ? & ?).
  destruct rs' as [|r0 rs']; [by destruct ws|]. rewrite Hu. cbn.
  destruct ss, rws, ds; try done. cbn.
  split_and!; [|done|].
  - eexists ws', _. cbn. split_and!; try done.
    + by rewrite Hlen'.
    + intros ->. by destruct ws.
    + by rewrite length_fmap, Hlen'.
    + apply Forall_fmap, Forall_true. intros c. apply wrap16_range.
  - exists (length ws). cbn in *. split_and!; [done|lia..].
Qed.

(** C4, as the code has it.  [step] does not compare the number of
    actions with the number of workers, and a mismatch raises nothing.
    With more actions than workers the surplus is ignored: the call is the
    call on the first [num_envs] actions.  With fewer, the first
    [len(actions)] workers are sent their step command, the others nothing,
    and the call never returns: it waits for a reply that no worker will
    send. *)
Theorem step_wrong_length st ws actions :
  ready st →
  _p_to_workers (self st) = Some ws →
  length actions ≠ length ws →
  (∀ e st', step actions st ≠ Raised e st') ∧
  ((length ws < length actions)%nat →
     step actions st = step (take (length ws) actions) st) ∧
  ((length actions < length ws)%nat →
     ∃ st' ws', step actions st = Blocked st' ∧
                _p_to_workers (self st') = Some ws' ∧
                sent_to ws' =
                append_each (sent_to ws)
                  ((λ action, ("step", PAct action)) <$> actions)).
Proof.
  intros Hready Hws' Hneq.
  split.
  { intros e st' Hraised. pose proof (step_from_ready actions st Hready) as Hs.
    by rewrite Hraised in Hs. }
  destruct Hready as (ws0 & cs & Hws & Hcs & Hn & Hne & Hlen & _ & Hq).
  assert (ws0 = ws) as -> by congruence. clear Hws'.
  destruct st as [[? ? ? ? ?] rs]; cbn in *; simplify_eq.
  split; intros Hcmp.
  - unfold step. co_unfold. cbn. rewrite fmap_take.
    pose proof (send_zip_take ws
                  ((λ action, ("step", PAct action)) <$> actions)) as Htake.
    unfold message in Htake. by rewrite Htake.
  - unfold step. co_unfold. cbn.
    set (msgs := (λ action, ("step", PAct action)) <$> actions).
    assert ((recv_each (send_zip ws msgs)).2 = None) as Hnone.
    { apply recv_each_starved; [done|]. unfold msgs.
      by rewrite length_fmap. }
    pose proof (sent_to_recv_each (send_zip ws msgs)) as Hsent.
    rewrite sent_to_send_zip in Hsent.
    destruct (recv_each _) as [ws' rs']; cbn in *. subst rs'.
    by eexists _, ws'.
Qed.

Lemma length_send_where msg ws mask :
  length (send_where msg ws mask) = length ws.
Proof.
  revert mask. induction ws as [|w ws IH]; intros [|b mask]; cbn; try done.
  by rewrite IH.
Qed.

Lemma deliver_all_send_where msg ws :
  deliver msg <$> ws = send_where msg ws (replicate (length ws) true).
Proof. by rewrite send_where_all. Qed.

Lemma reset_from_ready mask st :
  ready st →
  match reset mask st with
  | Returned _ st' => ready st' ∧ _num_envs (self st') = _num_envs (self st)
  | Raised e st' => e = IndexError ∧ st' = st
  | Blocked _ => True
  end.
Proof.
  intros Hready.
  pose proof Hready as (ws & cs & Hws & Hcs & Hn & Hne & Hlen & Hcs16 & Hq).
  destruct st as [[? ? ? ? ?] rs]; cbn in *; simplify_eq.
  unfold reset. destruct mask as [mask|].
  - case_decide as Hz; [done|]. co_unfold. cbn. unfold setitem_mask.
    case_decide as Hm; cbn; [|done].
    destruct (recv_where _ _) as [ws' [rs'|]] eqn:Hr; cbn; [|done].
    pose proof Hr as Hl. apply recv_where_length in Hl;
      [|by rewrite length_send_where, Hm].
    apply recv_where_send_where in Hr as (Hq' & Hlen' & Hfor); [|done].
    destruct (as_obs_total rs' Hfor) as (obs & -> & Hobs).
    destruct obs as [|ob obs]; [cbn in Hobs; congruence|]. cbn.
    split; [|done]. eexists ws', _. cbn. split_and!; try done.
    + by rewrite Hlen'.
    + intros ->. by destruct ws.
    + rewrite length_zip_with, Hlen', Hm. lia.
    + clear -Hcs16. revert mask.
      induction Hcs16 as [|c cs Hc _ IH]; intros [|[] mask]; cbn;
        try constructor; try done; apply IH.
  - co_unfold. cbn. rewrite deliver_all_send_where, <- recv_where_all.
    rewrite length_send_where.
    destruct (recv_where _ _) as [ws' [rs'|]] eqn:Hr; cbn; [|done].
    pose proof Hr as Hl. apply recv_where_length in Hl;
      [|by rewrite length_send_where, length_replicate].
    apply recv_where_send_where in Hr as (Hq' & Hlen' & Hfor); [|done].
    destruct (as_obs_total rs' Hfor) as (obs & -> & Hobs).
    rewrite count_nonzero_replicate_true in Hl.
    destruct obs as [|ob obs]; [destruct ws; cbn in *; congruence|]. cbn.
    split; [|done]. eexists ws', _. cbn. split_and!; try done.
    + by rewrite Hlen'.
    + intros ->. by destruct ws.
    + by rewrite length_fmap, Hlen'.
    + by apply Forall_fmap, Forall_true.
Qed.

Lemma deliver_silent cmd data w :
  fire_and_forget cmd →
  pipe_out (mem (deliver (cmd, data) w)) = pipe_out (mem w).
Proof.
  intros (? & ? & ?).
  destruct (deliver_out cmd data w) as [?|(r & _ & Hr)]; [done|].
  by destruct r.
Qed.

Lemma same_replies_refl ws : same_replies ws ws.
Proof. induction ws; by constructor. Qed.

Lemma same_replies_trans ws1 ws2 ws3 :
  same_replies ws1 ws2 → same_replies ws2 ws3 → same_replies ws1 ws3.
Proof.
  unfold same_replies. intros H12. revert ws3.
  induction H12 as [|w1 w2 ws1 ws2 Hw _ IH]; intros ws3 H23;
    inversion H23; subst; constructor; [congruence|by apply IH].
Qed.


Lemma same_replies_alter cmd data i ws :
  fire_and_forget cmd →
  same_replies ws (alter (deliver (cmd, data)) i ws).
Proof.
  intros Hcmd. revert i. induction ws as [|w ws IH]; intros [|i]; cbn;
    try constructor; try done.
  - by apply deliver_silent.
  - apply same_replies_refl.
  - apply IH.
Qed.








End Invariant.

(** * Heap and pickling facts *)

Section Pickling.

Lemma pickle_at_int fuel h z : pickle_at fuel h (VInt z) = Some (TInt z).
Proof. by destruct fuel. Qed.

Lemma pickle_at_ints fuel h zs :
  mapM (pickle_at fuel h) (VInt <$> zs) = Some (TInt <$> zs).
Proof.
  induction zs as [|z zs IH]; [done|].
  cbn. rewrite pickle_at_int. cbn. by rewrite IH.
Qed.

Lemma pickle_at_dict fuel h a items :
  h !! a = Some (ODict items) →
  pickle_at (S fuel) h (VRef a)
  = TDict <$> mapM (λ kv, pair kv.1 <$> pickle_at fuel h kv.2) items.
Proof. intros Ha. cbn [pickle_at]. by rewrite Ha. Qed.

Lemma pickle_at_list fuel h a elems :
  h !! a = Some (OList elems) →
  pickle_at (S fuel) h (VRef a) = TList <$> mapM (pickle_at fuel h) elems.
Proof. intros Ha. cbn [pickle_at]. by rewrite Ha. Qed.

(** Pickling reads only what is allocated: one more object on the heap
    changes nothing to a value that pickles. *)
Lemma pickle_at_alloc fuel (h : heap) o v t :
  pickle_at fuel h v = Some t → pickle_at fuel (h ++ [o]) v = Some t.
Proof.
  revert v t. induction fuel as [|fuel IH]; intros v t; destruct v as [| | | |a];
    cbn; try done.
  destruct (h !! a) as [obj|] eqn:Ha; [|done].
  rewrite (lookup_app_l_Some _ _ _ _ Ha).
  destruct obj as [items|elems].
  - intros Hm. destruct (mapM _ items) as [ts|] eqn:Hts; [|done].
    replace (mapM _ items) with (Some ts); [done|]. symmetry.
    clear Ha Hm. revert ts Hts.
    induction items as [|[k v] items IHi]; intros ts; cbn; [done|].
    destruct (pickle_at fuel h v) as [tv|] eqn:Hv; [|done].
    rewrite (IH _ _ Hv). cbn.
    destruct (mapM _ items) as [ts'|] eqn:Hts'; [|done].
    rewrite (IHi _ eq_refl). done.
  - intros Hm. destruct (mapM _ elems) as [ts|] eqn:Hts; [|done].
    replace (mapM _ elems) with (Some ts); [done|]. symmetry.
    clear Ha Hm. revert ts Hts.
    induction elems as [|v elems IHi]; intros ts; cbn; [done|].
    destruct (pickle_at fuel h v) as [tv|] eqn:Hv; [|done].
    rewrite (IH _ _ Hv). cbn.
    destruct (mapM _ elems) as [ts'|] eqn:Hts'; [|done].
    rewrite (IHi _ eq_refl). done.
Qed.

(** A shallow copy pickles as the original, as long as nothing is mutated
    in between. *)
Lemma pickle_py_copy v (h : heap) v' h' t :
  py_copy v h = inr (v', h') → pickle h v = inr t → pickle h' v' = inr t.
Proof.
  unfold pickle, recursion_limit. destruct v as [| | | |a]; try done.
  cbn [py_copy]. destruct (h !! a) as [o|] eqn:Ha; [|done]. intros [= <- <-].
  change 1000%nat with (S 999). generalize 999%nat. intros fuel.
  destruct (pickle_at (S fuel) h (VRef a)) as [t'|] eqn:Ht; [|done].
  intros [= <-]. pose proof (pickle_at_alloc _ _ o _ _ Ht) as Ht'.
  cbn [pickle_at] in *. rewrite (lookup_app_l_Some _ _ _ _ Ha) in Ht'.
  rewrite list_lookup_middle by done. by rewrite Ht'.
Qed.

End Pickling.

(** * The counter simulation: sixteen-bit counters *)

Section Endless.
Import Counter.

Lemma endless_step (act : Action) c h zs log :
  0 ≤ c → h !! 0%nat = Some (OList (VInt <$> zs)) →
  ∃ h' r,
    deliver ("step", PAct act) (endless_worker c h log)
    = {| process := Serving {| count := c + 1; limit := -1; visited := 0%nat |};
         mem := {| w_heap := h'; pipe_out := [RStep (c + 1) 1 false r];
                   pipe_closed := false |};
         pipe_in := log ++ [("step", PAct act)] |} ∧
    h' !! 0%nat = Some (OList (VInt <$> (zs ++ [c + 1]))).
Proof.
  intros Hc Hh.
  assert (0 < length h)%nat as Hlen by (by apply lookup_lt_Some in Hh).
  set (h1 := <[0%nat := OList ((VInt <$> zs) ++ [VInt (c + 1)])]> h).
  set (d := ODict [("count", VInt (c + 1)); ("visited", VRef 0%nat)]).
  assert (((h1 ++ [d]) ++ [d]) !! 0%nat
          = Some (OList (VInt <$> (zs ++ [c + 1])))) as H0.
  { assert (length h1 = length h) as Hl1 by apply length_insert.
    rewrite !lookup_app_l by (rewrite ?length_app; lia).
    unfold h1. rewrite list_lookup_insert_eq by done. by rewrite fmap_app. }
  exists ((h1 ++ [d]) ++ [d]),
    (TDict [("count", TInt (c + 1));
            ("visited", TList (TInt <$> (zs ++ [c + 1])))]).
  split; [|done].
  eapply (deliver_step (endless_worker c h log) _ _ _ _ _ false
            (VRef (length h1)) (h1 ++ [d]) (VRef (length (h1 ++ [d]))));
    try done.
  - cbn. rewrite Hh. cbn. by rewrite bool_decide_false by lia.
  - cbn. by rewrite list_lookup_middle.
  - assert (((h1 ++ [d]) ++ [d]) !! length (h1 ++ [d]) = Some d) as Hd
      by by apply list_lookup_middle.
    unfold pickle, recursion_limit. change 1000%nat with (S (S 998)).
    rewrite pickle_at_dict with (items := [("count", VInt (c + 1)); ("visited", VRef 0%nat)]) by exact Hd.
    cbn [mapM fst snd fmap option_fmap option_map mbind option_bind].
    rewrite pickle_at_int.
    rewrite pickle_at_list with (elems := VInt <$> (zs ++ [c + 1])) by exact H0.
    rewrite pickle_at_ints. reflexivity.
Qed.

Lemma endless_init : endless_inv endless.
Proof.
  eexists 0, _, [], _, _, _, _, _. split; [done|].
  split; [|reflexivity]. reflexivity.
Qed.

Lemma step_endless st :
  endless_inv st → ∃ r st', step [()] st = Returned r st' ∧ endless_inv st'.
Proof.
  intros (c & h & zs & log & cs & a & o & rs & Hc & Hh & ->).
  destruct (endless_step () c h zs log Hc Hh) as (h' & r & Hd & Hh').
  eexists _, _. split.
  - unfold step. co_unfold.
    cbn [self _p_to_workers fmap list_fmap send_zip]. rewrite Hd. cbn.
    reflexivity.
  - eexists (c + 1), h', _, _, _, _, _, _.
    split; [lia|]. split; [exact Hh'|]. reflexivity.
Qed.

Lemma run_endless n st :
  endless_inv st →
  ∃ st', run (replicate n (CallStep [()])) st = Returned () st' ∧
         endless_inv st'.
Proof.
  revert st. induction n as [|n IH]; intros st Hinv; [by eexists|].
  destruct (step_endless st Hinv) as (r & st1 & Hstep & Hinv1).
  destruct (IH st1 Hinv1) as (st' & Hrun & Hinv').
  exists st'. split; [|done].
  cbn. cbv [mbind mret Co_bind Co_ret]. by rewrite Hstep.
Qed.

(** C2 fails on the code at the end of the range of [np.int16].  A pool
    of one worker is stepped 32767 times without a reset, every call
    returning; its counter is then 32767, and the next [step] leaves it at
    -32768 instead of 32768. *)
Theorem step_counter_overflow :
  ∃ st r st',
    run (replicate (Z.to_nat 32767) (CallStep [()])) endless
      = Returned () st ∧
    counter_at st 0%nat = Some 32767 ∧
    step [()] st = Returned r st' ∧
    counter_at st' 0%nat = Some (-32768).
Proof.
  destruct (run_endless (Z.to_nat 32767) endless endless_init)
    as (st & Hrun & Hinv).
  destruct (step_endless st Hinv) as (r & st' & Hstep & _).
  exists st, r, st'.
  assert (counter_at st 0%nat = Some 32767) as Hk.
  { rewrite (run_counter_at _ _ _ 0%nat 0 Hrun) by reflexivity.
    rewrite steps_since_reset_steps, Z2Nat.id by lia. reflexivity. }
  split; [exact Hrun|]. split; [exact Hk|]. split; [exact Hstep|].
  rewrite (step_counter_at _ _ _ _ 0%nat _ Hstep Hk). reflexivity.
Qed.

(** C3 fails on the code for the same reason as C2.  Along 32768 calls of
    [step] with no reset in between, all returning, the counter of the
    worker goes from 32767 down to -32768 at the last call, and so is not
    the number of steps since the last reset, 32768. *)
Theorem step_counter_is_not_the_step_count :
  ∃ st st',
    run (replicate (Z.to_nat 32767) (CallStep [()])) endless
      = Returned () st ∧
    run [CallStep [()]] st = Returned () st' ∧
    counter_at st 0%nat = Some 32767 ∧
    counter_at st' 0%nat = Some (-32768) ∧
    steps_since_reset 0%nat 0 (replicate (Z.to_nat 32768) (CallStep [()]))
      = 32768.
Proof.
  destruct (run_endless (Z.to_nat 32767) endless endless_init)
    as (st & Hrun & Hinv).
  destruct (run_endless 1 st Hinv) as (st' & Hrun' & _).
  exists st, st'.
  assert (counter_at st 0%nat = Some (wrap16 32767)) as Hk.
  { rewrite (run_counter_at _ _ _ 0%nat 0 Hrun) by reflexivity.
    rewrite steps_since_reset_steps, Z2Nat.id by lia. reflexivity. }
  split; [exact Hrun|]. split; [exact Hrun'|]. split; [exact Hk|]. split.
  - rewrite (run_counter_at _ _ _ 0%nat 32767 Hrun' Hk). reflexivity.
  - rewrite steps_since_reset_steps, Z2Nat.id by lia. reflexivity.
Qed.

End Endless.

(** * The copy of [info] *)

Section InfoCopy.
Context `{Simulation}.

(** X23. When the step does not end the episode nothing runs between the
    copy and the send, and the info sent is the info of the step as it was
    when the step returned: the copy does not show. *)
Lemma step_info_when_not_done (w : Worker) env data env1 ob reward info h1
    total_info h2 t :
  process w = Serving env →
  pipe_closed (mem w) = false →
  env_step env data (w_heap (mem w))
    = inr (env1, (ob, reward, false, info), h1) →
  py_copy info h1 = inr (total_info, h2) →
  pickle h1 info = inr t →
  deliver ("step", data) w =
  {| process := Serving env1;
     mem := {| w_heap := h2;
               pipe_out := pipe_out (mem w) ++ [RStep ob reward false t];
               pipe_closed := false |};
     pipe_in := pipe_in w ++ [("step", data)] |}.
Proof.
  intros Hp Hopen Hstep Hcopy Ht.
  eapply deliver_step; try done. by eapply pickle_py_copy.
Qed.

End InfoCopy.

(** * The counter simulation: the copy of [info] *)

Section Scenarios.
Import Counter.

(** [x.copy()] allocates one container and fills it with the entries of
    [x] as they are: a reference among them is copied as a reference. *)
Lemma py_copy_shares v h v' h' :
  py_copy v h = inr (v', h') →
  ∃ a o, v = VRef a ∧ h !! a = Some o ∧
         v' = VRef (length h) ∧ h' = h ++ [o].
Proof.
  destruct v as [| | | |a]; try done. cbn.
  destruct (h !! a) as [o|] eqn:Ha; [|done].
  intros [= <- <-]. by exists a, o.
Qed.

(** C10 fails on the code when [info] holds a mutable value and the step
    ends the episode.  The counter's third step returns
    [{count: 3, visited: [1, 2, 3]}] where [visited] is the simulation's
    own list.  [info.copy()] is a shallow copy: [total_info] is a new dict
    whose [visited] entry is still that list.  The auto-reset empties the
    list before the reply is pickled, and the info that is sent is
    [{count: 3, visited: []}].  A deep copy taken at the same point would
    have been sent as the step returned it. *)
Theorem info_copy_is_shallow :
  ∃ env env1 info h1 total_info h2 env2 ob h3 deep h2' env2' ob' h3',
    process w2 = Serving env ∧
    env_step env (PAct ()) (w_heap (mem w2))
      = inr (env1, (3, 1, true, info), h1) ∧
    pickle h1 info
      = inr (TDict [("count", TInt 3);
                    ("visited", TList [TInt 1; TInt 2; TInt 3])]) ∧
    py_copy info h1 = inr (total_info, h2) ∧
    (∃ a, total_info = VRef a ∧
          h2 !! a = Some (ODict [("count", VInt 3);
                                 ("visited", VRef (visited env))])) ∧
    env_reset env1 h2 = inr (env2, ob, h3) ∧
    pickle h3 total_info
      = inr (TDict [("count", TInt 3); ("visited", TList [])]) ∧
    last (pipe_out (mem (deliver ("step", PAct ()) w2)))
      = Some (RStep 0 1 true
                (TDict [("count", TInt 3); ("visited", TList [])])) ∧
    py_deepcopy recursion_limit info h1 = inr (deep, h2') ∧
    env_reset env1 h2' = inr (env2', ob', h3') ∧
    pickle h3' deep
      = inr (TDict [("count", TInt 3);
                    ("visited", TList [TInt 1; TInt 2; TInt 3])]).
Proof.
  do 14 eexists. 
  split; [reflexivity|]. split; [reflexivity|]. split; [reflexivity|].
  split; [reflexivity|]. split; [eexists; split; reflexivity|].
  split; [reflexivity|]. split; [reflexivity|]. split; [reflexivity|].
  split; [vm_compute; reflexivity|]. split; [reflexivity|]. reflexivity.
Qed.

End Scenarios.

(** * The statements at concrete inputs *)

Section Instances.
Import Counter.

Lemma ready_pool2 : ready pool2.
Proof.
  eexists _, _. split_and!; try reflexivity; [done| |].
  - by repeat constructor.
  - by repeat constructor.
Qed.

Lemma step_reply_observation_witness :
  ∃ env2 h3,
    deliver ("step", PAct ()) w2 =
    {| process := Serving env2;
       mem := {| w_heap := h3;
                 pipe_out :=
                   pipe_out (mem w2) ++
                   [RStep 0 1 true
                      (TDict [("count", TInt 3); ("visited", TList [])])];
                 pipe_closed := false |};
       pipe_in := pipe_in w2 ++ [("step", PAct ())] |}.
Proof.
  edestruct (step_reply_observation w2
               {| count := 2; limit := 3; visited := 0%nat |} (PAct ()))
    as [Hdone _]; [reflexivity..|].
  eexists _, _. apply Hdone; reflexivity.
Defined.


Lemma reset_nothing_flagged_witness :
  reset (Some [false; false]) pool2 = Returned None pool2.
Proof. apply reset_nothing_flagged. by repeat constructor. Defined.

(** C4 fails on the code: a pool of two workers given three actions steps
    both workers and returns, raising nothing. *)
Lemma step_surplus_actions_accepted :
  length [(); (); ()] ≠ 2%nat ∧
  ∃ r st' ws',
    step [(); (); ()] pool2 = Returned r st' ∧
    _p_to_workers (self st') = Some ws' ∧
    sent_to ws' = [[("get_spaces", PNone); ("step", PAct ())];
                   [("step", PAct ())]].
Proof. split; [done|]. eexists _, _, _. split_and!; reflexivity. Qed.

Lemma step_wrong_length_witness :
  ∃ st' ws',
    step [()] pool2 = Blocked st' ∧
    _p_to_workers (self st') = Some ws' ∧
    sent_to ws' = [[("get_spaces", PNone); ("step", PAct ())]; []].
Proof.
  edestruct (step_wrong_length pool2 _ [()] ready_pool2 eq_refl)
    as (_ & _ & Hfewer); [done|].
  apply Hfewer. cbn. lia.
Defined.

Lemma seed_empty_map_witness :
  seed (Some []) pool2 = seed None pool2 ∧
  ∃ st' ws',
    seed (Some []) pool2 = Returned () st' ∧
    _p_to_workers (self st') = Some ws' ∧
    Forall2 (λ w w', ∃ z, 0 ≤ z < 2 ^ 31 ∧
                          pipe_in w' = pipe_in w ++ [("seed", PInt z)])
      (default [] (_p_to_workers (self pool2))) ws'.
Proof. apply (seed_empty_map_seeds_everyone pool2 _ eq_refl). Defined.

(** C9 fails on the code: after [close], [reset] with a mask that flags
    no worker returns [None] and raises nothing. *)
Lemma reset_after_close_returns :
  ∃ st', close pool2 = Returned () st' ∧
         reset (Some [false; false]) st' = Returned None st'.
Proof. eexists. split; reflexivity. Qed.

Lemma calls_after_close_witness :
  ∃ st', close pool2 = Returned () st' ∧
         step [(); ()] st' = Raised TypeError st' ∧
         reset None st' = Raised AttributeError st' ∧
         seed None st' = Raised TypeError st'.
Proof.
  eexists. split; [reflexivity|].
  edestruct (calls_after_close pool2) as (Hstep & Hreset & _ & _ & Hseed & _);
    [reflexivity|].
  split; [apply Hstep|]. split; [apply Hreset|apply Hseed].
Defined.

(** The scenario of two counters stepped three times: the third call
    reports [done] with the observation 0 of the auto-reset, and both
    counters are 3. *)
Example three_steps_of_two_counters :
  let st2 := state_of (run [CallStep [(); ()]; CallStep [(); ()]] pool2) in
  ∃ infos st3,
    step [(); ()] st2 = Returned ([0; 0], [1; 1], [true; true], infos) st3 ∧
    _step_counters (self st3) = Some [3; 3].
Proof.
  intros st2. eexists _, _. split.
  - vm_compute. reflexivity.
  - reflexivity.
Qed.

End Instances.

(** * Further properties of the worker loop *)

Section WorkerReplies.
Context `{Simulation}.


(** X1. Whatever the command and its data, a worker sends at most one
    reply for it, and of the kind the tag calls for: the 4-tuple for
    [step], an observation for [reset], the pair of spaces for
    [get_spaces]; for every other tag, known or not, it sends nothing. *)
Theorem one_reply_per_command cmd data (w : Worker) :
  (pipe_out (mem (deliver (cmd, data) w)) = pipe_out (mem w) ∨
   ∃ r, pipe_out (mem (deliver (cmd, data) w)) = pipe_out (mem w) ++ [r] ∧
        reply_for cmd r) ∧
  (fire_and_forget cmd →
   pipe_out (mem (deliver (cmd, data) w)) = pipe_out (mem w)).
Proof. split; [apply deliver_out|apply deliver_silent]. Qed.

End WorkerReplies.

(** * Construction *)

Section Construction.
Context `{Simulation}.

Lemma spawn_draws env_fns st :
  spawn env_fns st =
  Returned (zip_with worker_start (draws (np_random st) (length env_fns))
              env_fns)
    {| self := self st; np_random := advance (np_random st) (length env_fns) |}.
Proof.
  revert st. induction env_fns as [|fn fns IH]; intros [b rs]; cbn.
  - by destruct rs.
  - cbv [mbind mret Co_bind Co_ret np_random_randint randint]. cbn.
    rewrite IH. cbn. unfold advance, draws. cbn. do 3 f_equal. lia.
Qed.

Lemma worker_start_log seed env_fn : pipe_in (worker_start seed env_fn) = [].
Proof. unfold worker_start. by destruct (guarded _ _). Qed.


(** A serving worker answers [get_spaces] with the spaces of its
    simulation and goes on serving it. *)
Lemma deliver_get_spaces w env :
  process w = Serving env → pipe_closed (mem w) = false →
  deliver ("get_spaces", PNone) w =
  {| process := Serving env;
     mem := {| w_heap := w_heap (mem w);
               pipe_out := pipe_out (mem w) ++
                           [RSpaces (action_space env) (observation_space env)];
               pipe_closed := pipe_closed (mem w) |};
     pipe_in := pipe_in w ++ [("get_spaces", PNone)] |}.
Proof.
  intros Hp Hopen. unfold deliver, guarded. rewrite Hp. cbn.
  wk_unfold. by rewrite Hopen.
Qed.

Lemma sent_to_starts (seeds : list Z) (env_fns : list Factory) :
  sent_to (zip_with worker_start seeds env_fns)
  = replicate (length (zip_with worker_start seeds env_fns)) [].
Proof.
  revert env_fns. induction seeds as [|z seeds IH]; intros [|fn fns]; cbn;
    try done.
  rewrite worker_start_log. f_equal. apply IH.
Qed.

(** X3. What [__init__] leaves behind when it returns: one worker per
    factory, started with the draws of the generator in order, which has
    advanced by that many draws; the spaces are those of the simulation of
    worker 0, which alone was sent a command ([get_spaces]); every counter
    is 0 and no reply is pending. *)
Theorem init_returns env_fns rs st :
  BatchedEnv_new env_fns rs = Returned () st →
  ready st ∧
  np_random st = advance rs (length env_fns) ∧
  ∃ p0 rest env0,
    self st = {| _num_envs := Some (length env_fns);
                 _p_to_workers := Some (p0 :: rest);
                 _action_space := Some (action_space env0);
                 _observation_space := Some (observation_space env0);
                 _step_counters := Some (replicate (length env_fns) 0) |} ∧
    process p0 = Serving env0 ∧
    process <$> (p0 :: rest)
      = process <$> zip_with worker_start (draws rs (length env_fns)) env_fns ∧
    sent_to (p0 :: rest)
      = [("get_spaces", PNone)] :: replicate (length env_fns - 1) [].
Proof.
  intros Hnew. split; [by eapply init_ready|]. revert Hnew.
  unfold BatchedEnv_new, init. destruct env_fns as [|fn fns]; [done|].
  co_unfold. cbn [self _num_envs]. rewrite spawn_draws.
  cbn [self np_random length].
  pose proof (sent_to_starts (draws rs (S (length fns))) (fn :: fns)) as Hlog.
  assert (length (zip_with worker_start (draws rs (S (length fns))) (fn :: fns))
          = S (length fns)) as Hlen.
  { rewrite length_zip_with. unfold draws. rewrite length_fmap, length_seq.
    cbn. lia. }
  rewrite Hlen in Hlog.
  destruct (zip_with worker_start _ (fn :: fns)) as [|p0 rest] eqn:Hws;
    [done|].
  assert (p0 = worker_start (rng_draws rs (rng_pos rs) `mod` 2 ^ 31) fn) as Hp0.
  { unfold draws in Hws. cbn in Hws. by injection Hws as <- _. }
  cbn in Hlog. injection Hlog as Hlog0 Hlogs.
  destruct (worker_start_fresh (rng_draws rs (rng_pos rs) `mod` 2 ^ 31) fn)
    as [Hq0 Hopen]. rewrite <- Hp0 in Hq0, Hopen.
  destruct (process p0) as [env0|code] eqn:Hproc.
  - rewrite (deliver_get_spaces p0 env0 Hproc (Hopen _ eq_refl)).
    unfold pipe_recv. cbn. rewrite Hq0. cbn. intros [= <-]. cbn.
    split; [done|]. eexists _, rest, env0. split; [done|]. cbn.
    rewrite Hproc, Hlog0, Nat.sub_0_r. split_and!; try done.
    by rewrite Hlogs.
  - unfold deliver. rewrite Hproc. unfold pipe_recv. cbn. by rewrite Hq0.
Qed.


End Construction.

(** * Step on a pool *)

Section StepOnPool.
Context `{Simulation}.

Lemma pipe_recv_single w r :
  pipe_out (mem w) = [r] → pipe_recv w = Some (r, drained w).
Proof. unfold pipe_recv, drained. by intros ->. Qed.

(** On a quiet worker a command followed by a reception: the reply is the
    only thing the worker sent. *)
Lemma deliver_recv_drained cmd data w r w' :
  pipe_out (mem w) = [] →
  pipe_recv (deliver (cmd, data) w) = Some (r, w') →
  pipe_out (mem (deliver (cmd, data) w)) = [r] ∧
  w' = drained (deliver (cmd, data) w).
Proof.
  intros Hq. destruct (deliver_out cmd data w) as [Ho|(r' & Ho & _)];
    rewrite Hq in Ho; cbn in Ho.
  - by rewrite pipe_recv_quiet.
  - rewrite (pipe_recv_single _ r') by done.
    by intros [= <- <-].
Qed.

Lemma recv_each_send_zip_at ws msgs ws' rs i w :
  quiet ws →
  recv_each (send_zip ws msgs) = (ws', Some rs) →
  ws !! i = Some w →
  ∃ m r, msgs !! i = Some m ∧ rs !! i = Some r ∧
         pipe_out (mem (deliver m w)) = [r] ∧
         ws' !! i = Some (drained (deliver m w)).
Proof.
  revert msgs ws' rs i. induction ws as [|w0 ws IH];
    intros msgs ws' rs i Hq; [done|].
  apply Forall_cons in Hq as [Hw Hq]. destruct msgs as [|[cmd data] msgs]; cbn.
  { by rewrite pipe_recv_quiet. }
  destruct (pipe_recv (deliver (cmd, data) w0)) as [[r w1]|] eqn:Hr; [|done].
  destruct (deliver_recv_drained _ _ _ _ _ Hw Hr) as [Hout ->].
  destruct (recv_each (send_zip ws msgs)) as [ws1 [rs1|]] eqn:Hrest;
    cbn; [|done].
  intros [= <- <-]. destruct i as [|i]; cbn.
  - intros [= <-]. by eexists _, _.
  - intros Hi. by eapply IH.
Qed.

Lemma unzip_steps_at rs states rewards dones infos i r :
  unzip_steps rs = Some (states, rewards, dones, infos) →
  rs !! i = Some r →
  ∃ ob reward done info,
    r = RStep ob reward done info ∧ states !! i = Some ob ∧
    rewards !! i = Some reward ∧ dones !! i = Some done ∧
    infos !! i = Some info.
Proof.
  revert states rewards dones infos i.
  induction rs as [|r0 rs IH]; intros states rewards dones infos i.
  { by rewrite lookup_nil. }
  destruct r0 as [ob reward done info| |]; cbn.
  - destruct (unzip_steps rs) as [[[[ss rws] ds] infs]|] eqn:Hu; cbn; [|done].
    intros [= <- <- <- <-]. destruct i as [|i]; cbn.
    + intros [= <-]. by eexists _, _, _, _.
    + intros Hi. by eapply IH.
  - done.
  - done.
Qed.

(** X5. [step] is aligned by index and each worker runs on its own.  When
    [step] returns on a ready pool, worker [i] was sent exactly
    [('step', actions[i])], and entry [i] of the observations, rewards,
    dones and infos is the one reply worker [i] gave to it, a reply that
    depends on that worker and that action alone. *)
Theorem step_is_index_aligned st ws actions states rewards dones infos st'
    i w :
  ready st →
  _p_to_workers (self st) = Some ws →
  step actions st = Returned (states, rewards, dones, infos) st' →
  ws !! i = Some w →
  ∃ action ob reward done info,
    actions !! i = Some action ∧
    states !! i = Some ob ∧ rewards !! i = Some reward ∧
    dones !! i = Some done ∧ infos !! i = Some info ∧
    pipe_out (mem (deliver ("step", PAct action) w))
      = [RStep ob reward done info] ∧
    _p_to_workers (self st') ≫= (.!! i)
      = Some (drained (deliver ("step", PAct action) w)).
Proof.
  intros (ws0 & cs & Hws & Hcs & Hn & Hne & Hlen & _ & Hq) Hws' Hstep Hi.
  assert (ws0 = ws) as -> by congruence. clear Hws'.
  destruct st as [[? ? ? ? ?] rs]; cbn in *; simplify_eq.
  revert Hstep. unfold step. co_unfold. cbn.
  destruct (recv_each _) as [ws' [rs'|]] eqn:Hr; cbn; [|done].
  destruct (recv_each_send_zip_at _ _ _ _ _ _ Hq Hr Hi)
    as (m & r & Hm & Hri & Hout & Hwi).
  rewrite list_lookup_fmap in Hm.
  destruct (actions !! i) as [action|] eqn:Ha; [|done]. cbn in Hm.
  injection Hm as <-.
  destruct rs' as [|r0 rs']; [done|].
  destruct (unzip_steps (r0 :: rs')) as [[[[ss rws] ds] infs]|] eqn:Hu;
    cbn; [|done].
  destruct (unzip_steps_at _ _ _ _ _ _ _ Hu Hri)
    as (ob & reward & done & info & -> & ? & ? & ? & ?).
  destruct ss, rws, ds; cbn; try done. intros [= <- <- <- <- <-]. cbn.
  by eexists action, ob, reward, done, info.
Qed.

Lemma recv_each_some ws ws' rs :
  recv_each ws = (ws', Some rs) →
  Forall (λ w, pipe_out (mem w) ≠ []) ws.
Proof.
  revert ws' rs. induction ws as [|w ws IH]; intros ws' rs; [done|]. cbn.
  unfold pipe_recv. destruct (pipe_out (mem w)) as [|r out] eqn:Hout; [done|].
  destruct (recv_each ws) as [ws1 [rs1|]] eqn:Hrest; cbn; [|done].
  intros _. constructor; [by rewrite Hout|by eapply IH].
Qed.

Lemma deliver_dead msg w code :
  process w = Exited code → pipe_out (mem (deliver msg w)) = pipe_out (mem w).
Proof. intros Hp. unfold deliver. by rewrite Hp. Qed.

Lemma send_zip_dead ws msgs i w code :
  ws !! i = Some w → process w = Exited code →
  ∃ w', send_zip ws msgs !! i = Some w' ∧
        pipe_out (mem w') = pipe_out (mem w).
Proof.
  revert msgs i. induction ws as [|w0 ws IH]; intros msgs i; [done|].
  destruct msgs as [|m msgs]; [by eexists|].
  destruct i as [|i]; cbn.
  - intros [= ->] Hp. eexists. split; [done|]. by eapply deliver_dead.
  - by apply IH.
Qed.

(** X6. A worker that has terminated is never reported: on a ready pool
    one of whose workers has exited (it failed to start, or a command made
    it raise), [step] and [reset(None)] send their commands and then wait
    forever for its reply. *)
Theorem dead_worker_blocks_the_batch st ws i w code actions :
  ready st →
  _p_to_workers (self st) = Some ws →
  ws !! i = Some w →
  process w = Exited code →
  (∃ st', step actions st = Blocked st') ∧
  (∃ st', reset None st = Blocked st').
Proof.
  intros (ws0 & cs & Hws & Hcs & Hn & Hne & Hlen & _ & Hq) Hws' Hi Hp.
  assert (ws0 = ws) as -> by congruence. clear Hws'.
  destruct st as [[? ? ? ? ?] rs]; cbn in *; simplify_eq.
  assert (pipe_out (mem w) = []) as Hw.
  { by apply (Forall_lookup_1 _ _ _ _ Hq Hi). }
  split.
  - unfold step. co_unfold. cbn.
    destruct (recv_each _) as [ws' [rs'|]] eqn:Hr; cbn; [|by eexists].
    apply recv_each_some in Hr.
    destruct (send_zip_dead ws ((λ action, ("step", PAct action)) <$> actions)
                i w code Hi Hp) as (w' & Hi' & Hout).
    pose proof (Forall_lookup_1 _ _ _ _ Hr Hi') as Hne'. cbn in Hne'.
    congruence.
  - unfold reset. co_unfold. cbn.
    destruct (recv_each _) as [ws' [rs'|]] eqn:Hr; cbn; [|by eexists].
    apply recv_each_some in Hr.
    assert ((deliver ("reset", PNone) <$> ws) !! i
            = Some (deliver ("reset", PNone) w)) as Hi'.
    { by rewrite list_lookup_fmap, Hi. }
    pose proof (Forall_lookup_1 _ _ _ _ Hr Hi') as Hne'. cbn in Hne'.
    rewrite (deliver_dead _ _ _ Hp) in Hne'. congruence.
Qed.

(** X7. When [step] returns on a ready pool, the pool is ready again:
    every reply has been read and none is pending; [num_envs] is
    unchanged; each of the four results has exactly one entry per worker;
    and at least [num_envs] actions had been given. *)
Theorem step_keeps_ready actions st states rewards dones infos st' :
  ready st →
  step actions st = Returned (states, rewards, dones, infos) st' →
  ready st' ∧ _num_envs (self st') = _num_envs (self st) ∧
  ∃ n, _num_envs (self st) = Some n ∧ length states = n ∧
       length rewards = n ∧ length dones = n ∧ length infos = n ∧
       (n ≤ length actions)%nat.
Proof.
  intros Hready Hret. pose proof (step_from_ready actions st Hready) as Hs.
  rewrite Hret in Hs. destruct Hs as (Hready' & Hn' & n & Hn & Hlens).
  split; [done|]. split; [done|]. exists n. split_and!; try apply Hlens; [done|].
  destruct Hready as (ws & cs & Hws & Hcs & Hnum & Hne & Hlen & _ & Hq).
  assert (n = length ws) as -> by congruence.
  destruct (decide (length actions < length ws)%nat) as [Hlt|]; [|lia].
  exfalso. revert Hret.
  destruct st as [[? ? ? ? ?] rs]; cbn in *; simplify_eq.
  unfold step. co_unfold. cbn.
  set (msgs := (λ action, ("step", PAct action)) <$> actions).
  assert ((recv_each (send_zip ws msgs)).2 = None) as Hnone.
  { apply recv_each_starved; [done|]. unfold msgs. by rewrite length_fmap. }
  destruct (recv_each _) as [ws' rs']; cbn in *. by subst rs'.
Qed.

End StepOnPool.

(** * Reset and close *)

Section ResetAndClose.
Context `{Simulation}.

Lemma recv_where_send_where_at cmd data ws mask ws' rs :
  quiet ws →
  recv_where (send_where (cmd, data) ws mask) mask = (ws', Some rs) →
  (∀ i w, ws !! i = Some w → mask !! i ≠ Some true → ws' !! i = Some w) ∧
  (∀ i w, ws !! i = Some w → mask !! i = Some true →
          ws' !! i = Some (drained (deliver (cmd, data) w))) ∧
  Forall2 (λ w r, pipe_out (mem (deliver (cmd, data) w)) = [r])
    (flagged ws mask) rs.
Proof.
  revert mask ws' rs. induction ws as [|w0 ws IH]; intros mask ws' rs Hq.
  { destruct mask; cbn; intros [= <- <-]; split_and!; try done; try constructor. }
  apply Forall_cons in Hq as [Hw Hq]. destruct mask as [|b mask]; cbn.
  { intros [= <- <-]. split_and!; try done; try constructor. }
  destruct b.
  - destruct (pipe_recv (deliver (cmd, data) w0)) as [[r w1]|] eqn:Hr; [|done].
    destruct (deliver_recv_drained _ _ _ _ _ Hw Hr) as [Hout ->].
    destruct (recv_where _ mask) as [ws1 [rs1|]] eqn:Hrest; cbn; [|done].
    intros [= <- <-]. destruct (IH _ _ _ Hq Hrest) as (Hun & Hfl & Hall).
    split_and!.
    + intros [|i] w; cbn; [done|]. apply Hun.
    + intros [|i] w; cbn; [by intros [= <-]|]. apply Hfl.
    + by constructor.
  - destruct (recv_where _ mask) as [ws1 rs1] eqn:Hrest; cbn.
    intros [= <- ->]. destruct (IH _ _ _ Hq Hrest) as (Hun & Hfl & Hall).
    split_and!.
    + intros [|i] w; cbn; [done|]. apply Hun.
    + intros [|i] w; cbn; [done|]. apply Hfl.
    + done.
Qed.

Lemma as_obs_all rs obs :
  mapM as_obs rs = Some obs → Forall2 (λ r ob, r = RObs ob) rs obs.
Proof.
  revert obs. induction rs as [|r rs IH]; intros obs; cbn.
  - intros [= <-]. constructor.
  - destruct r as [| ob |]; cbn; try done.
    destruct (mapM as_obs rs) as [obs'|]; cbn; [|done].
    intros [= <-]. constructor; [done|by apply IH].
Qed.

(** X8. [reset] with a mask is selective.  When it returns observations on
    a ready pool, the mask has one flag per worker; a worker that is not
    flagged is left exactly as it was (nothing sent, nothing read); a
    flagged one was sent one [reset] and its reply was read; and the
    observations returned are those replies, one per flagged worker, in
    worker order. *)
Theorem reset_mask_is_selective st ws mask obs st' :
  ready st →
  _p_to_workers (self st) = Some ws →
  reset (Some mask) st = Returned (Some obs) st' →
  length mask = length ws ∧
  ∃ ws',
    _p_to_workers (self st') = Some ws' ∧
    (∀ i w, ws !! i = Some w → mask !! i = Some false → ws' !! i = Some w) ∧
    (∀ i w, ws !! i = Some w → mask !! i = Some true →
            ws' !! i = Some (drained (deliver ("reset", PNone) w))) ∧
    Forall2 (λ w ob, pipe_out (mem (deliver ("reset", PNone) w)) = [RObs ob])
      (flagged ws mask) obs.
Proof.
  intros (ws0 & cs & Hws & Hcs & Hn & Hne & Hlen & _ & Hq) Hws'.
  assert (ws0 = ws) as -> by congruence. clear Hws'.
  destruct st as [[? ? ? ? ?] rs]; cbn in *; simplify_eq.
  unfold reset. case_decide as Hz; [done|]. co_unfold. cbn.
  unfold setitem_mask. case_decide as Hm; cbn; [|done].
  destruct (recv_where _ _) as [ws' [rs'|]] eqn:Hr; cbn; [|done].
  apply recv_where_send_where_at in Hr as (Hun & Hfl & Hall); [|done].
  destruct (mapM as_obs rs') as [obs'|] eqn:Hobs; cbn; [|done].
  apply as_obs_all in Hobs.
  destruct obs' as [|ob obs']; cbn; [done|]. intros [= <- <-]. cbn.
  split; [congruence|]. exists ws'. split_and!; try done.
  - intros i w Hi Hmi. apply Hun; [done|]. by rewrite Hmi.
  - clear -Hall Hobs. revert Hobs. generalize (ob :: obs'). intros obs.
    revert obs. induction Hall as [|w r fs rs Hw _ IH]; intros obs Hobs;
      inversion Hobs; subst; constructor; [done|by apply IH].
Qed.

(** X9. A mask of the wrong length that flags some worker is refused
    before anything happens: [reset] raises [IndexError], no counter
    changes and nothing is sent. *)
Theorem reset_mask_wrong_length st cs mask :
  _step_counters (self st) = Some cs →
  count_nonzero mask ≠ 0%nat →
  length mask ≠ length cs →
  reset (Some mask) st = Raised IndexError st.
Proof.
  intros Hcs Hz Hlen. unfold reset. rewrite decide_False by done.
  co_unfold. rewrite Hcs. unfold setitem_mask. by rewrite decide_False.
Qed.


(** Every worker of a quiet pool answers [reset] or the reception fails:
    when all the replies arrive, they are the observations [env.reset()]
    returned in the workers, in worker order. *)
Lemma deliver_reset_reply w ob :
  pipe_out (mem w) = [] →
  pipe_out (mem (deliver ("reset", PNone) w)) = [RObs ob] →
  ∃ env env' h', process w = Serving env ∧
                 env_reset env (w_heap (mem w)) = inr (env', ob, h').
Proof.
  intros Hq. unfold deliver. destruct (process w) as [env|code]; cbn.
  - unfold guarded, loop_body. cbn. wk_unfold.
    destruct (env_reset env (w_heap (mem w))) as [e|[[env' ob'] h']] eqn:Hr;
      cbn; [by rewrite Hq|].
    destruct (pipe_closed (mem w)); cbn; rewrite Hq; [done|].
    intros [= ->]. by eexists env, env', h'.
  - by rewrite Hq.
Qed.

Lemma recv_each_deliver_all msg ws ws' rs :
  quiet ws →
  recv_each (deliver msg <$> ws) = (ws', Some rs) →
  Forall2 (λ w r, pipe_out (mem (deliver msg w)) = [r]) ws rs.
Proof.
  revert ws' rs. induction ws as [|w ws IH]; intros ws' rs Hq; cbn.
  { intros [= <- <-]. constructor. }
  apply Forall_cons in Hq as [Hw Hq]. destruct msg as [cmd data].
  destruct (pipe_recv (deliver (cmd, data) w)) as [[r w1]|] eqn:Hr; [|done].
  destruct (deliver_recv_drained _ _ _ _ _ Hw Hr) as [Hout ->].
  destruct (recv_each (deliver (cmd, data) <$> ws)) as [ws1 [rs1|]] eqn:Hrest;
    cbn; [|done].
  intros [= <- <-]. constructor; [done|]. by eapply IH.
Qed.

(** C6. On a pool of [num_envs] workers, [reset] with the mask of
    [num_envs] flags all true is the same call as [reset(None)]: same
    outcome, same result, same final state.  In that state every worker
    has been sent one [reset] command and every counter is 0.  When the
    call returns, its result is the list of the observations that
    [env.reset()] returned in the workers: one per worker, in worker
    order. *)
Theorem reset_all_true_is_reset_none st n :
  ready st →
  _num_envs (self st) = Some n →
  reset (Some (replicate n true)) st = reset None st ∧
  (∃ ws cs ws' cs',
     _p_to_workers (self st) = Some ws ∧
     _step_counters (self st) = Some cs ∧
     _p_to_workers (self (state_of (reset None st))) = Some ws' ∧
     _step_counters (self (state_of (reset None st))) = Some cs' ∧
     sent_to ws' = (λ log, log ++ [("reset", PNone)]) <$> sent_to ws ∧
     cs' = replicate n 0) ∧
  ∀ r st',
    reset (Some (replicate n true)) st = Returned r st' →
    ∃ ws obs,
      _p_to_workers (self st) = Some ws ∧
      r = Some obs ∧ length obs = n ∧
      Forall2 (λ w ob, ∃ env env' h',
                 process w = Serving env ∧
                 env_reset env (w_heap (mem w)) = inr (env', ob, h'))
        ws obs.
Proof.
  intros Hready Hn.
  destruct (reset_all_true_same_call st n Hready Hn) as [Heq Hstate].
  split; [done|]. split; [done|]. rewrite Heq. clear Heq Hstate.
  destruct Hready as (ws & cs & Hws & Hcs & Hnum & Hne & Hlen & _ & Hq).
  assert (n = length ws) as -> by congruence.
  intros r st'. destruct st as [[? ? ? ? ?] rs]; cbn in *; simplify_eq.
  unfold reset. co_unfold. cbn.
  destruct (recv_each _) as [ws' [rs'|]] eqn:Hr; cbn; [|done].
  apply recv_each_deliver_all in Hr; [|done].
  destruct (mapM as_obs rs') as [obs|] eqn:Hobs; cbn; [|done].
  apply as_obs_all in Hobs.
  destruct obs as [|ob obs]; cbn; [done|]. intros [= <- <-].
  exists ws, (ob :: obs). split_and!; try done.
  - rewrite <- (Forall2_length _ _ _ Hobs). symmetry.
    by apply (Forall2_length _ _ _ Hr).
  - clear -Hr Hobs Hq. revert Hobs. generalize (ob :: obs). intros os.
    revert os Hq. induction Hr as [|w r ws rs Hw _ IH]; intros os Hq Hobs;
      inversion Hobs; subst; constructor.
    + apply Forall_cons in Hq as [Hqw _]. by apply deliver_reset_reply.
    + apply Forall_cons in Hq as [_ Hq]. by apply IH.
Qed.

End ResetAndClose.

(** * The calls that expect no reply *)

Section Indexing.

Lemma py_index_in_range n id : in_range n id → is_Some (py_index n id).
Proof.
  unfold in_range, py_index. intros Hr.
  repeat case_decide; eauto. lia.
Qed.

Lemma py_index_out_of_range n id : ¬ in_range n id → py_index n id = None.
Proof.
  unfold in_range, py_index. intros Hr. repeat case_decide; try done; lia.
Qed.

Lemma py_index_lt n id j : py_index n id = Some j → (j < n)%nat.
Proof.
  unfold py_index. repeat case_decide; intros [= <-]; lia.
Qed.

End Indexing.

Section FireAndForget.
Context `{Simulation}.

Lemma alter_deliver_log msg (i : nat) (ws : list Worker) (j : nat) w :
  ws !! j = Some w →
  ∃ w', alter (deliver msg) i ws !! j = Some w' ∧
        pipe_in w' = pipe_in w ++ (if decide (i = j) then [msg] else []).
Proof.
  intros Hj. destruct (decide (i = j)) as [->|Hne].
  - rewrite list_lookup_alter_eq, Hj. eexists. split; [done|].
    apply pipe_in_deliver.
  - rewrite list_lookup_alter_ne by done. exists w. by rewrite app_nil_r.
Qed.



(** X12. [render] of a list of ids resolves every id before it sends
    anything: if one id is out of range the call raises [IndexError] and no
    worker has been sent anything, not even those listed before it. *)
Theorem render_out_of_range_sends_nothing st ws id ids :
  _p_to_workers (self st) = Some ws →
  Exists (λ i, ¬ in_range (length ws) i) (id :: ids) →
  render (Some (id :: ids)) st = Raised IndexError st.
Proof.
  intros Hws Hbad. unfold render. co_unfold. rewrite Hws.
  rewrite (mapM_None_2 (py_index (length ws)) (id :: ids)); [done|].
  eapply Exists_impl; [done|]. intros i. apply py_index_out_of_range.
Qed.


End FireAndForget.

Section Seeding.
Context `{Simulation}.

Lemma seed_items_in_range items st ws :
  _p_to_workers (self st) = Some ws →
  Forall (λ it, in_range (length ws) it.1) items →
  ∃ st' ws',
    seed_items items st = Returned () st' ∧
    _p_to_workers (self st') = Some ws' ∧
    same_but_pipes st st' ∧
    same_replies ws ws' ∧
    ∀ j w, ws !! j = Some w →
      ∃ w', ws' !! j = Some w' ∧
            pipe_in w' = pipe_in w ++ seeds_for (length ws) j items.
Proof.
  revert st ws. induction items as [|[id s] items IH]; intros st ws Hws Hall.
  - exists st, ws. split_and!; try done.
    + apply same_replies_refl.
    + intros j w Hj. exists w. by rewrite app_nil_r.
  - apply Forall_cons in Hall as [Hid Hall]. cbn in Hid.
    destruct (py_index_in_range _ _ Hid) as [i Hi].
    cbn [seed_items]. co_unfold. rewrite Hws, Hi.
    set (ws1 := alter (deliver ("seed", seed_payload s)) i ws).
    assert (length ws1 = length ws) as Hlen1 by apply length_alter.
    edestruct (IH {| self := {| _num_envs := _num_envs (self st);
                                _p_to_workers := Some ws1;
                                _action_space := _action_space (self st);
                                _observation_space :=
                                  _observation_space (self st);
                                _step_counters := _step_counters (self st) |};
                     np_random := np_random st |} ws1)
      as (st' & ws' & Hrun & Hws' & Hsame & Hrep & Hlog);
      [done|by rewrite Hlen1|].
    exists st', ws'. split_and!; try done.
    + eapply same_replies_trans; [|done]. by apply same_replies_alter.
    + intros j w Hj.
      destruct (alter_deliver_log ("seed", seed_payload s) i ws j w Hj)
        as (w1 & Hj1 & Hlog1).
      destruct (Hlog j w1 Hj1) as (w' & Hj' & Hlog').
      exists w'. split; [done|]. rewrite Hlog', Hlog1, Hlen1, <- app_assoc.
      f_equal. unfold seeds_for. case_decide as Hij.
      * subst j. by rewrite filter_cons_True.
      * rewrite filter_cons_False; [done|]. cbn. congruence.
Qed.


Lemma seed_items_app items1 items2 st st1 :
  seed_items items1 st = Returned () st1 →
  seed_items (items1 ++ items2) st = seed_items items2 st1.
Proof.
  revert st. induction items1 as [|[id s] items1 IH]; intros st; cbn.
  - by intros [= <-].
  - co_unfold. destruct (_p_to_workers (self st)) as [ws|]; [|done].
    destruct (py_index (length ws) id) as [i|]; [|done]. apply IH.
Qed.

(** X15. [seed] with a [seed_map] does not check the ids beforehand: when
    an id is out of range the call raises [IndexError] after the entries
    before it have been sent, and the entries after it are not. *)
Theorem seed_stops_at_bad_id st ws before id s after :
  _p_to_workers (self st) = Some ws →
  Forall (λ it, in_range (length ws) it.1) before →
  ¬ in_range (length ws) id →
  ∃ st' ws',
    seed (Some (before ++ (id, s) :: after)) st = Raised IndexError st' ∧
    _p_to_workers (self st') = Some ws' ∧
    ∀ j w, ws !! j = Some w →
      ∃ w', ws' !! j = Some w' ∧
            pipe_in w' = pipe_in w ++ seeds_for (length ws) j before.
Proof.
  intros Hws Hall Hbad.
  destruct (seed_items_in_range before st ws Hws Hall)
    as (st' & ws' & Hrun & Hws' & _ & Hrep & Hlog).
  exists st', ws'. split_and!; try done.
  assert (seed (Some (before ++ (id, s) :: after)) st
          = seed_items (before ++ (id, s) :: after) st) as ->.
  { unfold seed. by destruct before. }
  rewrite (seed_items_app _ _ _ _ Hrun). cbn. co_unfold. rewrite Hws'.
  rewrite <- (Forall2_length _ _ _ Hrep).
  by rewrite (py_index_out_of_range _ _ Hbad).
Qed.






End Seeding.

(** * The step counters below the limit *)

Section CountersBelowLimit.
Context `{Simulation}.

Lemma steps_since_reset_nonneg i k calls :
  0 ≤ k → 0 ≤ steps_since_reset i k calls.
Proof.
  unfold steps_since_reset. revert k.
  induction calls as [|c calls IH]; intros k Hk; cbn; [done|].
  apply IH. destruct c as [actions|[mask|]]; cbn; [lia| |lia].
  case_decide; lia.
Qed.

(** X18. Below the 16-bit limit the counters do count: after [__init__]
    and any sequence of [step] and [reset] calls that have all returned,
    the counter of each worker is the number of [step] calls made since the
    last [reset] that flagged it (or since construction), as long as that
    number is less than 32768. *)
Theorem counters_count_steps env_fns rs st calls st' i :
  BatchedEnv_new env_fns rs = Returned () st →
  run calls st = Returned () st' →
  (i < length env_fns)%nat →
  steps_since_reset i 0 calls < 32768 →
  counter_at st' i = Some (steps_since_reset i 0 calls).
Proof.
  intros Hnew Hrun Hi Hlt.
  assert (counter_at st i = Some (wrap16 0)) as Hk.
  { revert Hnew. unfold BatchedEnv_new, init.
    destruct env_fns as [|fn fns]; [done|].
    co_unfold. cbn [self _num_envs].
    destruct (spawn (fn :: fns) _) as [ws st1|e st1|st1]; [|done..].
    destruct ws as [|p0 rest]; [done|]. cbn.
    destruct (pipe_recv (deliver ("get_spaces", PNone) p0)) as [[r p1]|];
      [|done].
    destruct r; cbn; try done. intros [= <-]. unfold counter_at. cbn.
    destruct i as [|i]; [done|]. cbn in Hi. cbn.
    apply lookup_replicate_2. lia. }
  rewrite (run_counter_at _ _ _ i 0 Hrun Hk).
  rewrite wrap16_small; [done|].
  pose proof (steps_since_reset_nonneg i 0 calls). lia.
Qed.

End CountersBelowLimit.

Section ResetReady.
Context `{Simulation}.

(** X24. On a ready pool [reset], with or without a mask, raises nothing
    but [IndexError], and then has changed nothing; when it returns the
    pool is ready again, with the same number of workers. *)
Theorem reset_keeps_ready mask st :
  ready st →
  (∀ e st', reset mask st = Raised e st' → e = IndexError ∧ st' = st) ∧
  (∀ r st', reset mask st = Returned r st' →
            ready st' ∧ _num_envs (self st') = _num_envs (self st)).
Proof.
  intros Hready. pose proof (reset_from_ready mask st Hready) as Hr.
  split.
  - intros e st' Hraised. by rewrite Hraised in Hr.
  - intros r st' Hret. by rewrite Hret in Hr.
Qed.

End ResetReady.

(** * The training loop *)

Section TrainProperties.
Import Train.
Context `{Lab}.


(** One turn: it raises, or it is one of the two rules of [turns]. *)
Lemma turn_cases env RL v s :
  match turn env RL v s with
  | (inl e, s') => True
  | (inr (Leave v'), s') =>
      total_steps v - MEMORY_SIZE > 45000 ∧
      ∃ a reward done,
        last (acc_r v) = Some a ∧
        v' = {| acc_r := acc_r v ++ [num_add reward a];
                total_steps := total_steps v;
                observation := observation v; episodes := episodes v;
                visualize := shown v |} ∧
        calls s' = calls s ++
          turn_calls (shown v) (bool_decide (total_steps v > MEMORY_SIZE))
            false reward done
  | (inr (Again v'), s') =>
      ¬ total_steps v - MEMORY_SIZE > 45000 ∧
      ∃ a reward (done : bool) o,
        last (acc_r v) = Some a ∧
        v' = {| acc_r := acc_r v ++ [num_add reward a];
                total_steps := total_steps v + 1;
                observation := o;
                episodes := if done then episodes v + 1 else episodes v;
                visualize := if done then false else shown v |} ∧
        calls s' = calls s ++
          turn_calls (shown v) (bool_decide (total_steps v > MEMORY_SIZE))
            done reward done
  end.
Proof.
  unfold turn. tr_unfold. destruct s as [w log]. cbn.
  destruct (pick_action RL (observation v) w) as [e|[action w1]]; [done|].
  cbn. destruct (gym_step env action w1) as [e|[[[[o reward] fin] info] w2]];
    [done|]. cbn.
  destruct (shown v); cbn;
    [destruct (gym_render env w2) as [e|[[] w3]]; [done|]; cbn|];
    (destruct (last (acc_r v)) as [a|]; [|done]); cbn;
    match goal with
    | |- context [store_trans ?x1 ?x2 ?x3 ?x4 ?x5 ?x6] =>
        destruct (store_trans x1 x2 x3 x4 x5 x6) as [e|[[] w4]]; [done|]; cbn
    end;
    (destruct (bool_decide (total_steps v > MEMORY_SIZE)); cbn;
     [destruct (learn RL w4) as [e|[[] w5]]; [done|]; cbn|]);
    (destruct (decide (total_steps v - MEMORY_SIZE > 45000)) as [Hbreak|Hbreak];
     cbn;
     [split; [done|]; eexists a, reward, fin|
      destruct fin; cbn;
      [match goal with
       | |- context [gym_reset ?x1 ?x2] =>
           destruct (gym_reset x1 x2) as [e|[o' w6]]; [done|]; cbn
       end;
       split; [done|]; eexists a, reward, true, o'|
       split; [done|]; eexists a, reward, false, o]]);
    split_and!; try done; unfold turn_calls; by rewrite <- !app_assoc.
Qed.

Lemma loop_turns fuel env RL v s v' s' :
  loop fuel env RL v s = (inr (Some v'), s') →
  ∃ evs, calls s' = calls s ++ evs ∧ turns v evs v'.
Proof.
  revert v s. induction fuel as [|fuel IH]; intros v s; cbn; [done|].
  cbv [mbind Tr_bind]. pose proof (turn_cases env RL v s) as Ht.
  destruct (turn env RL v s) as [[e|[v1|v1]] s1]; [done| |].
  - destruct Ht as (Hgo & a & reward & fin & o & Hlast & -> & Hcalls).
    intros Hloop. destruct (IH _ _ Hloop) as (evs & Hevs & Hturns).
    eexists. split; [by rewrite Hevs, Hcalls, <- app_assoc|].
    by eapply turns_again.
  - destruct Ht as (Hstop & a & reward & fin & Hlast & -> & Hcalls).
    intros [= <- <-]. eexists. split; [done|]. by apply turns_leave.
Qed.

(** The loop runs out of fuel only when given fewer turns than are left
    until [total_steps] passes 50000. *)
Lemma loop_fuel fuel env RL v s s' :
  loop fuel env RL v s = (inr None, s') →
  Z.of_nat fuel ≤ Z.max 0 (50001 - total_steps v).
Proof.
  revert v s. induction fuel as [|fuel IH]; intros v s; cbn; [lia|].
  cbv [mbind Tr_bind]. pose proof (turn_cases env RL v s) as Ht.
  destruct (turn env RL v s) as [[e|[v1|v1]] s1]; [done| |done].
  destruct Ht as (Hgo & a & reward & fin & o & Hlast & -> & Hcalls).
  intros Hloop. apply IH in Hloop. cbn in Hloop. unfold MEMORY_SIZE in Hgo.
  lia.
Qed.

Lemma rewards_turn_calls sh le re reward fin :
  rewards (turn_calls sh le re reward fin) = [reward].
Proof. by destruct sh, le, re. Qed.

Lemma dones_turn_calls sh le re reward fin :
  dones (turn_calls sh le re reward fin) = [fin].
Proof. by destruct sh, le, re. Qed.

Lemma learns_turn_calls sh le re reward fin :
  occurrences is_learn (turn_calls sh le re reward fin)
  = if le then 1%nat else 0%nat.
Proof. by destruct sh, le, re. Qed.

Lemma stores_turn_calls sh le re reward fin :
  occurrences is_store (turn_calls sh le re reward fin) = 1%nat.
Proof. by destruct sh, le, re. Qed.

Lemma rewards_app evs1 evs2 : rewards (evs1 ++ evs2) = rewards evs1 ++ rewards evs2.
Proof. apply omap_app. Qed.

Lemma dones_app evs1 evs2 : dones (evs1 ++ evs2) = dones evs1 ++ dones evs2.
Proof. apply omap_app. Qed.

Lemma occurrences_app f evs1 evs2 :
  occurrences f (evs1 ++ evs2)
  = (occurrences f evs1 + occurrences f evs2)%nat.
Proof. unfold occurrences. by rewrite List.filter_app, length_app. Qed.

Lemma ended_app evs1 evs2 : ended (evs1 ++ evs2) = ended evs1 + ended evs2.
Proof.
  unfold ended, count_nonzero. rewrite dones_app, filter_app, length_app. lia.
Qed.

(** The loop stops in the turn that starts with [total_steps] at 50001;
    it learns in the turns that start above [MEMORY_SIZE]. *)
Lemma turns_counts v evs v' :
  turns v evs v' →
  total_steps v ≤ 50001 →
  Z.of_nat (length (rewards evs)) = 50002 - total_steps v ∧
  Z.of_nat (occurrences is_learn evs) = 50002 - Z.max (total_steps v) 5001 ∧
  occurrences is_store evs = length (rewards evs).
Proof.
  induction 1 as [v a reward fin Hstop Hlast|v a reward fin o evs v' Hgo Hlast _ IH];
    intros Hle; unfold MEMORY_SIZE in *.
  - rewrite rewards_turn_calls, learns_turn_calls, stores_turn_calls.
    rewrite bool_decide_eq_true_2 by lia. cbn. lia.
  - rewrite rewards_app, !occurrences_app, length_app.
    rewrite rewards_turn_calls, learns_turn_calls, stores_turn_calls.
    cbn [total_steps] in IH. destruct IH as (Hsteps & Hlearns & Hstores); [lia|].
    cbn [length]. case_bool_decide; lia.
Qed.

Lemma turns_sums v evs v' a :
  turns v evs v' →
  last (acc_r v) = Some a →
  acc_r v' = acc_r v ++ sums a (rewards evs).
Proof.
  intros Hturns. revert a.
  induction Hturns as [v a0 reward fin Hstop Hlast|v a0 reward fin o evs v' Hgo Hlast _ IH];
    intros a Ha; assert (a0 = a) as -> by congruence.
  - by rewrite rewards_turn_calls.
  - rewrite rewards_app, rewards_turn_calls. cbn [app sums].
    rewrite (IH (num_add reward a)); cbn [acc_r]; [|by rewrite last_snoc].
    by rewrite <- app_assoc.
Qed.

(** Where a step sits in the calls of one turn followed by others. *)
Lemma turn_calls_split sh le re reward fin evs pre reward' fin' post :
  turn_calls sh le re reward fin ++ evs = pre ++ CStep reward' fin' :: post →
  (pre = [CPick] ∧ reward' = reward ∧ fin' = fin ∧
   (head post = Some CRender ↔ sh = true)) ∨
  ∃ pre', pre = turn_calls sh le re reward fin ++ pre' ∧
          evs = pre' ++ CStep reward' fin' :: post.
Proof.
  unfold turn_calls.
  destruct pre as [|e0 pre]; [done|]. cbn. intros [= <- Heq].
  destruct pre as [|e1 pre]; cbn in Heq.
  { injection Heq as <- <- <-. left. split_and!; try done.
    destruct sh; cbn; [done|]. split; [|done]. by intros [= ]. }
  injection Heq as <- Heq. right.
  destruct sh; cbn in Heq |- *.
  all: (destruct pre as [|e2 pre]; [done|]; injection Heq as <- Heq).
  1: (destruct pre as [|e3 pre]; [done|]; injection Heq as <- Heq).
  all: destruct le; cbn in Heq |- *.
  all: try (destruct pre as [|e4 pre]; [by destruct re|];
            injection Heq as <- Heq).
  all: destruct re; cbn in Heq |- *.
  all: try (destruct pre as [|e5 pre]; [done|]; injection Heq as <- Heq).
  all: by exists pre.
Qed.

(** A step is followed by a rendering exactly when the number of episodes
    ended before it is a multiple of 100. *)
Lemma turns_render v evs v' pre reward fin post :
  turns v evs v' →
  (visualize v = true → episodes v `mod` 100 = 0) →
  evs = pre ++ CStep reward fin :: post →
  head post = Some CRender ↔ (episodes v + ended pre) `mod` 100 = 0.
Proof.
  intros Hturns. revert pre.
  assert (∀ v, (visualize v = true → episodes v `mod` 100 = 0) →
               shown v = true ↔ episodes v `mod` 100 = 0) as Hshown.
  { intros u Hinv. unfold shown. case_decide; [done|]. split; [done|].
    intros. by destruct (visualize u). }
  induction Hturns as [v a0 reward0 fin0 Hstop Hlast|v a0 reward0 fin0 o evs v' Hgo Hlast _ IH];
    intros pre Hinv Hsplit.
  - rewrite <- (app_nil_r (turn_calls _ _ _ _ _)) in Hsplit.
    apply turn_calls_split in Hsplit
      as [(-> & _ & _ & Hhead)|(pre' & _ & Hnil)].
    + rewrite Hhead, (Hshown _ Hinv). by rewrite Z.add_0_r.
    + by destruct pre'.
  - apply turn_calls_split in Hsplit
      as [(-> & _ & _ & Hhead)|(pre' & -> & Hevs)].
    + rewrite Hhead, (Hshown _ Hinv). by rewrite Z.add_0_r.
    + rewrite (IH pre'); [| |done].
      * cbn [episodes]. rewrite ended_app.
        unfold ended at 2. rewrite dones_turn_calls.
        destruct fin0; cbn.
        -- by rewrite Z.add_assoc.
        -- by rewrite Z.add_0_l.
      * cbn [visualize episodes]. destruct fin0; [done|].
        intros Hs. by apply Hshown.
Qed.

(** What [train] has done when it returns. *)
Lemma train_cases fuel RL directory s costs acc s' :
  train fuel RL directory s = (inr (Some (costs, acc)), s') →
  ∃ o evs v',
    turns {| acc_r := [num_zero]; total_steps := 0; observation := o;
             episodes := 0; visualize := false |} evs v' ∧
    acc = acc_r v' ∧
    calls s' = calls s
               ++ [CMake "MsPacman-ram-v0"; CMonitor directory; CReset]
               ++ evs ++ [CPrint (episodes v'); CCosts].
Proof.
  unfold train. tr_unfold. destruct s as [w log]. cbn.
  destruct (gym_make _ w) as [e|[env0 w1]]; [done|]. cbn.
  destruct (Monitor env0 directory w1) as [e|[env w2]]; [done|]. cbn.
  destruct (gym_reset env w2) as [e|[o w3]]; [done|]. cbn.
  destruct (loop fuel env RL _ _) as [[e|[v'|]] s1] eqn:Hloop; [done| |done].
  apply loop_turns in Hloop as (evs & Hevs & Hturns). cbn in Hevs.
  destruct (cost_history RL (world s1)) as [e|[c w4]]; [done|]. cbn.
  intros [= <- <- <-]. exists o, evs, v'. split_and!; try done. cbn.
  rewrite Hevs, <- !app_assoc. done.
Qed.

Lemma train_fuel k RL directory s s' :
  train (Z.to_nat 50002 + k) RL directory s ≠ (inr None, s').
Proof.
  unfold train. tr_unfold. destruct s as [w log]. cbn.
  destruct (gym_make _ w) as [e|[env0 w1]]; [done|]. cbn.
  destruct (Monitor env0 directory w1) as [e|[env w2]]; [done|]. cbn.
  destruct (gym_reset env w2) as [e|[o w3]]; [done|]. cbn.
  destruct (loop _ env RL _ _) as [[e|[v'|]] s1] eqn:Hloop; [done| |].
  - by destruct (cost_history RL (world s1)) as [e|[c w4]].
  - apply loop_fuel in Hloop. cbn in Hloop. lia.
Qed.

Lemma turn_obliging env RL v s :
  obliging → is_Some (last (acc_r v)) →
  ∃ r s', turn env RL v s = (inr r, s').
Proof.
  intros (_ & _ & Hreset & Hstep & Hrender & Hpick & Hstore & Hlearn & _)
    [a Ha].
  unfold turn. tr_unfold. destruct s as [w log]. cbn.
  destruct (Hpick RL (observation v) w) as [[action w1] ->]. cbn.
  destruct (Hstep env action w1) as [[[[[o reward] fin] info] w2] ->]. cbn.
  destruct (shown v); cbn;
    [destruct (Hrender env w2) as [[[] w3] ->]; cbn|];
    rewrite Ha; cbn;
    match goal with
    | |- context [store_trans ?x1 ?x2 ?x3 ?x4 ?x5 ?x6] =>
        destruct (Hstore x1 x2 x3 x4 x5 x6) as [[[] w4] ->]; cbn
    end;
    (destruct (bool_decide (total_steps v > MEMORY_SIZE)); cbn;
     [destruct (Hlearn RL w4) as [[[] w5] ->]; cbn|]);
    (destruct (decide (total_steps v - MEMORY_SIZE > 45000));
     [by eexists _, _|]);
    (destruct fin; [|by eexists _, _]); cbn;
    match goal with
    | |- context [gym_reset ?x1 ?x2] =>
        destruct (Hreset x1 x2) as [[o' w6] ->]
    end;
    by eexists _, _.
Qed.

Lemma turns_last v evs v' :
  turns v evs v' → is_Some (last (acc_r v)) → is_Some (last (acc_r v')).
Proof.
  induction 1 as [v a reward fin _ _|v a reward fin o evs v' _ _ _ IH];
    intros _.
  - cbn. rewrite last_snoc. by eexists.
  - apply IH. cbn. rewrite last_snoc. by eexists.
Qed.

Lemma loop_obliging fuel env RL v s :
  obliging → is_Some (last (acc_r v)) →
  ∃ r s', loop fuel env RL v s = (inr r, s').
Proof.
  intros Hob. revert v s. induction fuel as [|fuel IH]; intros v s Hlast; cbn.
  { by eexists _, _. }
  cbv [mbind Tr_bind]. pose proof (turn_cases env RL v s) as Ht.
  destruct (turn_obliging env RL v s Hob Hlast) as (r & s1 & Hturn).
  rewrite Hturn in Ht |- *. destruct r as [v1|v1]; [|by eexists _, _].
  apply IH. destruct Ht as (_ & a & reward & fin & o & _ & -> & _). cbn.
  rewrite last_snoc. by eexists.
Qed.

Lemma train_obliging k RL directory s :
  obliging →
  ∃ costs acc s',
    train (Z.to_nat 50002 + k) RL directory s = (inr (Some (costs, acc)), s').
Proof.
  intros Hob. pose proof (train_fuel k RL directory s) as Hfuel. revert Hfuel.
  pose proof Hob as (Hmake & Hmon & Hreset & _ & _ & _ & _ & _ & Hcosts).
  unfold train. tr_unfold. destruct s as [w log]. cbn.
  destruct (Hmake "MsPacman-ram-v0" w) as [[env0 w1] ->]. cbn.
  destruct (Hmon env0 directory w1) as [[env w2] ->]. cbn.
  destruct (Hreset env w2) as [[o w3] ->]. cbn.
  edestruct (loop_obliging (Z.to_nat 50002 + k) env RL) as (r & s1 & ->);
    [done|by eexists|].
  destruct r as [v'|]; [|by intros Hfuel; destruct (Hfuel s1)].
  intros _. destruct (Hcosts RL (world s1)) as [[c w4] ->]. cbn.
  by eexists _, _, _.
Qed.


Lemma split_before_suffix (evs suffix pre : list event) x post :
  evs ++ suffix = pre ++ x :: post →
  x ∉ suffix →
  ∃ post', post = post' ++ suffix ∧ evs = pre ++ x :: post'.
Proof.
  intros Heq Hx. apply app_eq_inv in Heq as [(k & -> & Hk)|(k & -> & Hk)].
  - destruct k as [|y k]; cbn in Hk.
    + subst suffix. destruct Hx. by constructor.
    + injection Hk as <- ->. by exists k.
  - destruct Hx. rewrite Hk. apply elem_of_app. right. by constructor.
Qed.

(** A call of [learn] among the calls of one turn followed by others. *)
Lemma turn_calls_learn sh le re reward fin evs pre post :
  turn_calls sh le re reward fin ++ evs = pre ++ CLearn :: post →
  (le = true ∧ rewards pre = [reward]) ∨
  ∃ pre', pre = turn_calls sh le re reward fin ++ pre' ∧
          evs = pre' ++ CLearn :: post.
Proof.
  intros Heq. apply app_eq_inv in Heq as [(k & Hk & Hpost)|(k & -> & ->)].
  - destruct k as [|x k]; cbn in Hpost.
    + right. exists []. by rewrite app_nil_r in *.
    + injection Hpost as <- ->. left. revert Hk. unfold turn_calls.
      destruct sh, le, re; cbn; intros Hk;
        repeat (destruct pre as [|? pre]; cbn in Hk;
                [try done; simplify_eq; by split|
                 try done; injection Hk as <- Hk]).
  - right. by exists k.
Qed.

(** [learn] is not called before [total_steps] has passed [MEMORY_SIZE]. *)
Lemma turns_learn v evs v' pre post :
  turns v evs v' →
  evs = pre ++ CLearn :: post →
  5002 ≤ total_steps v + Z.of_nat (length (rewards pre)).
Proof.
  intros Hturns. revert pre.
  induction Hturns as [v a0 reward0 fin0 Hstop Hlast|v a0 reward0 fin0 o evs v' Hgo Hlast _ IH];
    intros pre Hsplit; unfold MEMORY_SIZE in *.
  - rewrite <- (app_nil_r (turn_calls _ _ _ _ _)) in Hsplit.
    apply turn_calls_learn in Hsplit as [[Hle ->]|(pre' & _ & Hnil)].
    + cbn. lia.
    + by destruct pre'.
  - apply turn_calls_learn in Hsplit as [[Hle ->]|(pre' & -> & Hevs)].
    + apply bool_decide_eq_true in Hle. cbn. lia.
    + specialize (IH pre' Hevs). cbn [total_steps] in IH.
      rewrite rewards_app, rewards_turn_calls, length_app. cbn. lia.
Qed.

Lemma ended_turn_calls sh le re reward (fin : bool) :
  ended (turn_calls sh le re reward fin) = if fin then 1 else 0.
Proof. unfold ended. rewrite dones_turn_calls. by destruct fin. Qed.

(** The episodes counted at the [break]: those ended before the last
    step. *)
Lemma turns_episodes v evs v' :
  turns v evs v' →
  ∃ pre reward fin tail,
    evs = pre ++ CStep reward fin :: tail ∧ rewards tail = [] ∧
    episodes v' = episodes v + ended pre.
Proof.
  induction 1 as [v a reward fin Hstop Hlast|v a reward fin o evs v' Hgo Hlast _ IH].
  - exists [CPick], reward, fin. eexists. split; [done|]. split.
    + by destruct (shown v), (bool_decide _).
    + cbn. unfold ended. cbn. lia.
  - destruct IH as (pre & reward' & fin' & tail & -> & Htail & Hep).
    eexists (_ ++ pre), reward', fin', tail. split; [by rewrite <- app_assoc|].
    split; [done|]. rewrite Hep, ended_app, ended_turn_calls. cbn [episodes].
    destruct fin; lia.
Qed.

(** X19. [train] comes to an end: when no call of the environment or of
    the agent raises, it returns, and 50002 turns of its loop are enough,
    whatever the episodes are like. *)
Theorem train_returns RL directory s k :
  obliging →
  ∃ costs acc s',
    train (Z.to_nat 50002 + k) RL directory s = (inr (Some (costs, acc)), s').
Proof. apply train_obliging. Qed.

(** X20. The length of a training run is fixed.  [train] never needs more
    than 50002 turns of its loop; when it returns it has made exactly 50002
    environment steps, stored as many transitions, called [learn] 45001
    times, never before the 5002nd step, and the list of accumulated
    rewards has 50003 entries. *)
Theorem train_length RL directory s k :
  match train (Z.to_nat 50002 + k) RL directory s with
  | (inl _, _) => True
  | (inr None, _) => False
  | (inr (Some (costs, acc)), s') =>
      ∃ evs, calls s' = calls s ++ evs ∧
             length (rewards evs) = Z.to_nat 50002 ∧
             occurrences is_store evs = Z.to_nat 50002 ∧
             occurrences is_learn evs = Z.to_nat 45001 ∧
             length acc = Z.to_nat 50003 ∧
             ∀ pre post, evs = pre ++ CLearn :: post →
                         (Z.to_nat 5002 ≤ length (rewards pre))%nat
  end.
Proof.
  destruct (train _ RL directory s) as [[e|[[costs acc]|]] s'] eqn:Htrain;
    [done| |by apply train_fuel in Htrain].
  apply train_cases in Htrain as (o & evs & v' & Hturns & -> & Hcalls).
  destruct (turns_counts _ _ _ Hturns) as (Hsteps & Hlearns & Hstores);
    [done|]. cbn in Hsteps, Hlearns.
  pose proof (turns_sums _ _ _ num_zero Hturns eq_refl) as Hacc.
  eexists. split; [done|].
  rewrite !rewards_app, !occurrences_app, Hacc, !length_app. cbn.
  assert (∀ a rs, length (sums a rs) = length rs) as Hsums.
  { intros a rs. revert a. induction rs as [|r rs IH]; intros a; cbn; [done|].
    by rewrite IH. }
  rewrite Hsums. split_and!; try lia.
  intros pre post Hsplit.
  destruct pre as [|e0 [|e1 [|e2 pre]]]; try done.
  injection Hsplit as <- <- <- Hsplit.
  apply split_before_suffix in Hsplit as (post' & -> & Hevs).
  2:{ rewrite !not_elem_of_cons. split_and!; try done. apply not_elem_of_nil. }
  pose proof (turns_learn _ _ _ pre post' Hturns Hevs) as Hpos.
  unfold rewards in Hpos |- *. cbn in Hpos |- *. lia.
Qed.

(** X21. The second result of [train] is the running sum of the rewards:
    it starts with 0 and entry [k + 1] is the reward of step [k] plus
    entry [k], the rewards being those the environment returned, in
    order. *)
Theorem acc_r_is_the_running_sum fuel RL directory s :
  match train fuel RL directory s with
  | (inr (Some (costs, acc)), s') =>
      ∃ evs, calls s' = calls s ++ evs ∧
             acc = num_zero :: sums num_zero (rewards evs)
  | _ => True
  end.
Proof.
  destruct (train _ RL directory s) as [[e|[[costs acc]|]] s'] eqn:Htrain;
    [done| |done].
  apply train_cases in Htrain as (o & evs & v' & Hturns & -> & Hcalls).
  eexists. split; [done|].
  rewrite (turns_sums _ _ _ num_zero Hturns eq_refl).
  rewrite !rewards_app. cbn. by rewrite app_nil_r.
Qed.

(** X22. [train] renders the episodes whose number is a multiple of 100
    and no other: in a run that returns, a step is followed by a call of
    [render] exactly when the number of episodes that ended before it is
    divisible by 100. *)
Theorem renders_every_hundredth_episode fuel RL directory s :
  match train fuel RL directory s with
  | (inr (Some _), s') =>
      ∃ evs, calls s' = calls s ++ evs ∧
        ∀ pre reward done post,
          evs = pre ++ CStep reward done :: post →
          head post = Some CRender ↔ ended pre `mod` 100 = 0
  | _ => True
  end.
Proof.
  destruct (train _ RL directory s) as [[e|[[costs acc]|]] s'] eqn:Htrain;
    [done| |done].
  apply train_cases in Htrain as (o & evs & v' & Hturns & -> & Hcalls).
  eexists. split; [done|]. intros pre reward fin post Hsplit.
  destruct pre as [|e0 [|e1 [|e2 pre]]]; try done.
  injection Hsplit as <- <- <- Hsplit.
  apply split_before_suffix in Hsplit as (post' & -> & Hevs).
  2:{ rewrite !not_elem_of_cons. split_and!; try done. apply not_elem_of_nil. }
  rewrite <- (turns_render _ _ _ pre reward fin post' Hturns) by done.
  destruct post'; cbn; [|done]. split; by intros [= ].
Qed.

(** X25. The line [train] prints at the end gives the number of episodes
    that ended before the last step: the print comes after the last step,
    and an episode that ends with that step is not counted. *)
Theorem printed_episodes fuel RL directory s :
  match train fuel RL directory s with
  | (inr (Some _), s') =>
      ∃ pre reward done tail,
        calls s' = calls s ++ pre ++ CStep reward done :: tail
                   ++ [CPrint (ended pre); CCosts] ∧
        rewards tail = []
  | _ => True
  end.
Proof.
  destruct (train _ RL directory s) as [[e|[[costs acc]|]] s'] eqn:Htrain;
    [done| |done].
  apply train_cases in Htrain as (o & evs & v' & Hturns & -> & Hcalls).
  apply turns_episodes in Hturns
    as (pre & reward & fin & tail & -> & Htail & Hep).
  exists ([CMake "MsPacman-ram-v0"; CMonitor directory; CReset] ++ pre),
    reward, fin, tail.
  split; [|done]. rewrite Hcalls, Hep. cbn [episodes].
  rewrite ended_app, <- !app_assoc. cbn. by rewrite !Z.add_0_l.
Qed.

End TrainProperties.

(** * The further statements at concrete inputs *)

Section FurtherInstances.
Import Counter.

Lemma ready_lame : ready lame.
Proof.
  eexists _, _. split_and!; try reflexivity; [done| |].
  - by repeat constructor.
  - by repeat constructor.
Qed.

Lemma init_returns_witness :
  BatchedEnv_new [make 3; make 3] rs0 = Returned () pool2 ∧
  ready pool2 ∧ np_random pool2 = advance rs0 2.
Proof.
  split; [reflexivity|].
  destruct (@init_returns sim [make 3; make 3] rs0 pool2 eq_refl) as (Hr & Hrs & _).
  by split.
Defined.

Lemma step_is_index_aligned_witness :
  ∃ w ob reward done info,
    pool2_workers !! 1%nat = Some w ∧
    pipe_out (mem (deliver ("step", PAct ()) w))
      = [RStep ob reward done info] ∧
    _p_to_workers (self (state_of (step [(); ()] pool2))) ≫= (.!! 1%nat)
      = Some (drained (deliver ("step", PAct ()) w)).
Proof.
  edestruct (step_is_index_aligned pool2 pool2_workers [(); ()])
    with (i := 1%nat)
    as (action & ob & reward & done & info & Ha & _ & _ & _ & _ & Hout & Hw);
    [apply ready_pool2|reflexivity..|].
  destruct action. eexists _, ob, reward, done, info.
  split; [reflexivity|]. split; [exact Hout|exact Hw].
Defined.

Lemma dead_worker_blocks_witness :
  (∃ code, (process <$> lame_workers) !! 1%nat = Some (Exited code)) ∧
  (∃ st', step [(); ()] lame = Blocked st') ∧
  (∃ st', reset None lame = Blocked st').
Proof.
  split; [by eexists|].
  apply (@dead_worker_blocks_the_batch sim lame lame_workers 1%nat _ (-1) [(); ()]
           ready_lame eq_refl eq_refl eq_refl).
Defined.

Lemma step_keeps_ready_witness :
  ready (state_of (step [(); ()] pool2)) ∧
  _num_envs (self (state_of (step [(); ()] pool2))) = Some 2%nat.
Proof.
  edestruct (@step_keeps_ready sim [(); ()] pool2) as (Hready & Hn & _);
    [apply ready_pool2|reflexivity|].
  split; [exact Hready|exact Hn].
Defined.

Lemma reset_mask_witness :
  ∃ ws',
    _p_to_workers (self (state_of (reset (Some [false; true]) pool2)))
      = Some ws' ∧
    ws' !! 0%nat = pool2_workers !! 0%nat ∧
    ws' !! 1%nat = drained ∘ deliver ("reset", PNone) <$> pool2_workers !! 1%nat.
Proof.
  edestruct (reset_mask_is_selective pool2 pool2_workers [false; true])
    as (_ & ws' & Hws' & Hun & Hfl & _);
    [apply ready_pool2|reflexivity..|].
  exists ws'. split; [exact Hws'|]. split.
  - rewrite (Hun 0%nat _ eq_refl eq_refl). reflexivity.
  - rewrite (Hfl 1%nat _ eq_refl eq_refl). reflexivity.
Defined.

Lemma reset_mask_wrong_length_witness :
  reset (Some [true]) pool2 = Raised IndexError pool2.
Proof. by apply (reset_mask_wrong_length pool2 [0; 0] [true]). Defined.


Lemma reset_all_true_witness :
  reset (Some [true; true]) pool2 = reset None pool2 ∧
  ∃ st', reset (Some [true; true]) pool2 = Returned (Some [0; 0]) st'.
Proof.
  destruct (reset_all_true_is_reset_none pool2 2 ready_pool2 eq_refl)
    as (Heq & _ & _).
  split; [exact Heq|]. by eexists.
Defined.


Lemma render_out_of_range_witness :
  render (Some [0; 2]) pool2 = Raised IndexError pool2.
Proof.
  apply (render_out_of_range_sends_nothing pool2 pool2_workers 0 [2] eq_refl).
  right. left. unfold in_range. change (length pool2_workers) with 2%nat. lia.
Defined.



Lemma seed_stops_at_bad_id_witness :
  ∃ st' ws',
    seed (Some ([(1, Some 4)] ++ (2, Some 5) :: [(0, Some 6)])) pool2
      = Raised IndexError st' ∧
    _p_to_workers (self st') = Some ws' ∧
    sent_to ws' = [[("get_spaces", PNone)]; [("seed", PInt 4)]].
Proof.
  edestruct (seed_stops_at_bad_id pool2 pool2_workers [(1, Some 4)] 2 (Some 5)
               [(0, Some 6)] eq_refl)
    as (st' & ws' & Hrun & Hws' & _).
  { change (length pool2_workers) with 2%nat.
    repeat constructor; cbn; lia. }
  { unfold in_range. change (length pool2_workers) with 2%nat. lia. }
  exists st', ws'. split; [exact Hrun|]. split; [exact Hws'|].
  revert Hrun Hws'. intros [= <-] [= <-]. reflexivity.
Defined.



Lemma counters_count_steps_witness :
  ∃ st',
    run [CallStep [(); ()]; CallReset (Some [false; true]); CallStep [(); ()]]
      pool2 = Returned () st' ∧
    counter_at st' 0 = Some 2.
Proof.
  exists (state_of
            (run [@CallStep sim [(); ()]; CallReset (Some [false; true]);
                  @CallStep sim [(); ()]] pool2)).
  assert (run [@CallStep sim [(); ()]; CallReset (Some [false; true]);
               @CallStep sim [(); ()]] pool2
          = Returned ()
              (state_of
                 (run [@CallStep sim [(); ()]; CallReset (Some [false; true]);
                       @CallStep sim [(); ()]] pool2))) as Hrun.
  { vm_compute. reflexivity. }
  split; [exact Hrun|].
  apply (@counters_count_steps sim [make 3; make 3] rs0 pool2 _ _ 0%nat
           eq_refl Hrun); [cbn; lia|done].
Defined.
Lemma step_info_when_not_done_witness :
  ∃ env1 h2,
    deliver ("step", PAct ()) w0 =
    {| process := Serving env1;
       mem := {| w_heap := h2;
                 pipe_out :=
                   pipe_out (mem w0) ++
                   [RStep 1 1 false
                      (TDict [("count", TInt 1);
                              ("visited", TList [TInt 1])])];
                 pipe_closed := false |};
       pipe_in := pipe_in w0 ++ [("step", PAct ())] |}.
Proof.
  eexists _, _.
  eapply (step_info_when_not_done w0 _ (PAct ())); reflexivity.
Defined.

Lemma reset_keeps_ready_witness :
  ready (state_of (reset (Some [true; false]) pool2)).
Proof.
  destruct (@reset_keeps_ready sim (Some [true; false]) pool2 ready_pool2)
    as [_ Hret].
  eapply proj1, Hret. reflexivity.
Defined.

End FurtherInstances.

Section TrainInstances.
Import Train.

Lemma still_obliging : @obliging still.
Proof. unfold obliging. split_and!; intros; by eexists. Qed.

Lemma train_returns_witness :
  ∃ costs acc s',
    train (Z.to_nat 50002 + 0) () "/tmp/natural/" {| world := 0; calls := [] |}
    = (inr (Some (costs, acc)), s').
Proof. apply (@train_returns still). apply still_obliging. Defined.

(** The last three turns of a run in the still laboratory: an episode ends
    in the first, the hundredth episode is rendered, and the third turn
    leaves the loop. *)
Example last_turns_of_a_run :
  loop 3 () ()
    {| acc_r := [0]; total_steps := 49999; observation := ();
       episodes := 99; visualize := false |}
    {| world := 6; calls := [] |}
  = (inr (Some {| acc_r := [0; 1; 2; 3]; total_steps := 50001;
                  observation := (); episodes := 100; visualize := true |}),
     {| world := 9;
        calls := [CPick; CStep 1 true; CStore; CLearn; CReset;
                  CPick; CStep 1 false; CRender; CStore; CLearn;
                  CPick; CStep 1 false; CRender; CStore; CLearn] |}).
Proof. vm_compute. reflexivity. Qed.

End TrainInstances.
